(** * pretty-printer.go: the scanner and the HTML renderer

    A shallow embedding of [scan], [colorizedPrint], [printSpanTags] and
    [printIndent] of pretty-printer.go, and the properties of the
    scanner/renderer pipeline established on it.

    Conventions.
    - A Go [string] is an immutable sequence of bytes: [list ascii].
      [s[i]] and [s[lo:hi]] panic when out of range, so both are modelled
      in the error monad [go].
    - Indices ([i], [start], [n]) are [nat]: they only grow from 0 and are
      compared with [len(s)].
    - [braceCount] is a Go [int] that moves by one per token; a token slice
      long enough to wrap it does not fit in memory, so it is a [Z].
    - [fmt.Printf] appends to standard output, carried as a byte sequence.
    - Every [for] loop advances its index, so it is a [Fixpoint] on a fuel
      of [n - i] iterations; the lemmas [*_eq] show that each satisfies
      the unfolding equation of the source's loop. *)

From Stdlib Require Import Ascii String List ZArith Lia Bool Arith.
Import ListNotations.

Local Open Scope list_scope.

(** Go's [==] on bytes. *)
Notation "c == d" := (Ascii.eqb c d) (at level 70, no associativity).

(** ** Go strings and run-time panics *)

Definition gostring := list ascii.

(** A string literal of the source. *)
Definition lit (s : string) : gostring := list_ascii_of_string s.

Definition dquote : ascii := "034"%char.
Definition backslash : ascii := "\"%char.
Definition newline : ascii := "010"%char.

Inductive panic : Type :=
| IndexOutOfRange
| SliceBoundsOutOfRange.

Inductive go (A : Type) : Type :=
| Ret (a : A)
| Panics (p : panic).
Arguments Ret {A} a.
Arguments Panics {A} p.

Definition bind {A B : Type} (m : go A) (k : A -> go B) : go B :=
  match m with
  | Ret a => k a
  | Panics p => Panics p
  end.

Notation "x <- m ;; k" := (bind m (fun x => k))
  (at level 61, m at next level, right associativity).

(** [s[i]] *)
Definition index (s : gostring) (i : nat) : go ascii :=
  match nth_error s i with
  | Some c => Ret c
  | None => Panics IndexOutOfRange
  end.

(** The bytes of [s] from [lo] up to [hi], without the bounds check. *)
Definition sub (s : gostring) (lo hi : nat) : gostring :=
  firstn (hi - lo) (skipn lo s).

(** [s[lo:hi]] *)
Definition slice (s : gostring) (lo hi : nat) : go gostring :=
  if (lo <=? hi) && (hi <=? length s)
  then Ret (sub s lo hi)
  else Panics SliceBoundsOutOfRange.

(** [string(c)] for a byte [c]: the UTF-8 encoding of the code point [c],
    one byte below 0x80 and two bytes from 0x80 on. *)
Definition string_of_byte (c : ascii) : gostring :=
  let n := nat_of_ascii c in
  if n <? 128 then [c]
  else [ascii_of_nat (192 + n / 64); ascii_of_nat (128 + n mod 64)].

Definition gostring_eqb (a b : gostring) : bool :=
  if list_eq_dec ascii_dec a b then true else false.

(** ** Package [unicode] on bytes

    [scan] calls [unicode.IsLetter] and [unicode.IsDigit] on [rune(s[i])],
    a code point below 256; both functions decide that range from the
    Latin-1 property table. *)

Definition between (lo n hi : nat) : bool := (lo <=? n) && (n <=? hi).

Definition IsDigit (c : ascii) : bool :=
  between 48 (nat_of_ascii c) 57.

Definition IsLetter (c : ascii) : bool :=
  let n := nat_of_ascii c in
  between 65 n 90 || between 97 n 122
  || (n =? 170) || (n =? 181) || (n =? 186)
  || between 192 n 214 || between 216 n 246 || between 248 n 255.

(** ** Tokens *)

Inductive Kind : Type :=
| LEFT_BRACE
| RIGHT_BRACE
| LEFT_BRACKET
| RIGHT_BRACKET
| COLON
| OBJECT_COMMA
| ARRAY_COMMA
| TRUE
| FALSE
| NULL
| STRING
| ESCAPE
| NUMBER
| LETTER
| UNKNOWN.

Definition Kind_eq_dec (a b : Kind) : {a = b} + {a <> b}.
Proof. decide equality. Defined.

Definition Kind_eqb (a b : Kind) : bool :=
  if Kind_eq_dec a b then true else false.

Record Token : Type := mkToken { kind : Kind; lexeme : gostring }.

Definition kindColor (k : Kind) : gostring :=
  match k with
  | LEFT_BRACE | RIGHT_BRACE => lit "rgb(60, 63, 163)"
  | LEFT_BRACKET | RIGHT_BRACKET => lit "rgb(232, 71, 162)"
  | COLON => lit "rgb(75, 193, 183)"
  | OBJECT_COMMA | ARRAY_COMMA => lit "rgb(255, 177, 76)"
  | TRUE | FALSE | NULL => lit "rgb(198, 76, 255)"
  | STRING => lit "rgb(232, 6, 6)"
  | ESCAPE => lit "rgb(71, 155, 85)"
  | NUMBER => lit "rgb(76, 135, 255)"
  | LETTER | UNKNOWN => lit "rgb(63, 79, 74)"
  end.

(** ** The scanner *)

Definition isValidNumberCode (c : ascii) : bool :=
  IsDigit c
  || ((c == ".") || (c == "e") || (c == "E") || (c == "-") || (c == "+")).

(** The variables of [scan]'s outer loop. *)
Record ScanState : Type := mkScan {
  pos : nat;               (* i *)
  insideArray : bool;
  result : list Token
}.

Definition emit (st : ScanState) (k : Kind) (lx : gostring) (i : nat)
  : ScanState :=
  mkScan i (insideArray st) (result st ++ [mkToken k lx]).

(** *** The string region *)

(** The variables of the loop over a string region. *)
Record StrState : Type := mkStr {
  start : nat;
  cur : nat;               (* i *)
  toks : list Token        (* result *)
}.

(** One iteration of [for i < n && s[i] != QUOTE], entered with [c = s[i]]. *)
Definition string_iter (s : gostring) (c : ascii) (q : StrState)
  : go StrState :=
  if c == backslash then
    frag <- slice s (start q) (cur q) ;;
    let result := toks q ++ [mkToken STRING frag] in
    let start := cur q in
    let i := cur q + 1 in
    e <- index s i ;;
    if e == "u" then
      let i := i + 5 in
      esc <- slice s start i ;;
      Ret (mkStr i i (result ++ [mkToken ESCAPE esc]))
    else
      let i := i + 1 in
      esc <- slice s start i ;;
      Ret (mkStr i i (result ++ [mkToken ESCAPE esc]))
  else
    Ret (mkStr (start q) (cur q + 1) (toks q)).

(** [for i < n && s[i] != QUOTE { ... }].  Every iteration advances [i], so
    [fuel = n - i] iterations suffice: with no fuel left, [i < n] is
    false and the loop has ended (see [string_loop_eq]). *)
Fixpoint string_loop (fuel : nat) (s : gostring) (q : StrState)
  : go StrState :=
  match fuel with
  | O => Ret q
  | S fuel' =>
      match nth_error s (cur q) with
      | None => Ret q
      | Some c =>
          if c == dquote then Ret q
          else q' <- string_iter s c q ;; string_loop fuel' s q'
      end
  end.

(** [case s[i] == QUOTE], the double-quote character *)
Definition scan_string (s : gostring) (st : ScanState) : go ScanState :=
  (* start := i; i++ *)
  let q0 := mkStr (pos st) (pos st + 1) (result st) in
  q <- string_loop (length s - cur q0) s q0 ;;
  let i := cur q + 1 in
  frag <- slice s (start q) i ;;
  Ret (mkScan i (insideArray st) (toks q ++ [mkToken STRING frag])).

(** *** Words *)

(** [for i < n && p(s[i]) { i++ }]: the loop that [scan] runs over a run
    of letters and over a run of number characters.  With no fuel left
    [i < n] is false (see [run_loop_eq]). *)
Fixpoint run_loop (p : ascii -> bool) (fuel : nat) (s : gostring) (i : nat)
  : nat :=
  match fuel with
  | O => i
  | S fuel' =>
      match nth_error s i with
      | None => i
      | Some c => if p c then run_loop p fuel' s (i + 1) else i
      end
  end.

(** [for i < n && unicode.IsLetter(rune(s[i])) { i++ }] *)
Definition letter_loop (s : gostring) (i : nat) : nat :=
  run_loop IsLetter (length s - i) s i.

(** Body of the [default] clause of the inner switch. *)
Definition letter_clause (s : gostring) (st : ScanState) : go ScanState :=
  let start := pos st in
  let i := letter_loop s (pos st) in
  lx <- slice s start i ;;
  Ret (emit st LETTER lx i).

(** Body of the clause [case i+4 < n && s[i] == 'f']; its [fallthrough]
    enters the [default] clause. *)
Definition false_clause (s : gostring) (st : ScanState) : go ScanState :=
  let start := pos st in
  let i := pos st in
  w <- slice s i (i + 5) ;;
  if gostring_eqb w (lit "false") then
    let i := i + 5 in
    lx <- slice s start i ;;
    Ret (emit st FALSE lx i)
  else letter_clause s st.

(** Body of the clause [case i+3 < n && (s[i] == 't' || s[i] == 'n')]; its
    [fallthrough] enters the body of the next clause without evaluating
    that clause's condition. *)
Definition true_null_clause (s : gostring) (st : ScanState) : go ScanState :=
  let start := pos st in
  let i := pos st in
  w <- slice s i (i + 4) ;;
  if gostring_eqb w (lit "true") then
    let i := i + 4 in
    lx <- slice s start i ;;
    Ret (emit st TRUE lx i)
  else
    w' <- slice s i (i + 4) ;;
    if gostring_eqb w' (lit "null") then
      let i := i + 4 in
      lx <- slice s start i ;;
      Ret (emit st NULL lx i)
    else false_clause s st.

(** [case unicode.IsLetter(rune(s[i]))], entered with [c = s[i]]. *)
Definition scan_word (s : gostring) (c : ascii) (st : ScanState)
  : go ScanState :=
  let n := length s in
  let i := pos st in
  if (i + 3 <? n) && ((c == "t") || (c == "n")) then true_null_clause s st
  else if (i + 4 <? n) && (c == "f") then false_clause s st
  else letter_clause s st.

(** *** Numbers *)

(** [for i < n && isValidNumberCode(s[i]) { i++ }] *)
Definition number_loop (s : gostring) (i : nat) : nat :=
  run_loop isValidNumberCode (length s - i) s i.

(** [case s[i] == '-' || unicode.IsDigit(rune(s[i]))] *)
Definition scan_number (s : gostring) (st : ScanState) : go ScanState :=
  let start := pos st in
  let i := number_loop s (pos st) in
  lx <- slice s start i ;;
  Ret (emit st NUMBER lx i).

(** *** The outer loop *)

(** The [switch] of the outer loop, entered with [c = s[i]]. *)
Definition step (s : gostring) (c : ascii) (st : ScanState) : go ScanState :=
  let i := pos st in
  if c == " " then
    Ret (mkScan (i + 1) (insideArray st) (result st))
  else if c == "{" then
    Ret (emit st LEFT_BRACE (lit "{") (i + 1))
  else if c == "}" then
    Ret (emit st RIGHT_BRACE (lit "}") (i + 1))
  else if c == "[" then
    Ret (mkScan (i + 1) (negb (insideArray st))
           (result st ++ [mkToken LEFT_BRACKET (lit "[")]))
  else if c == "]" then
    Ret (mkScan (i + 1) (negb (insideArray st))
           (result st ++ [mkToken RIGHT_BRACKET (lit "]")]))
  else if (c == ",") && negb (insideArray st) then
    Ret (emit st OBJECT_COMMA (lit ",") (i + 1))
  else if (c == ",") && insideArray st then
    Ret (emit st ARRAY_COMMA (lit ",") (i + 1))
  else if c == ":" then
    Ret (emit st COLON (lit ":") (i + 1))
  else if c == dquote then
    scan_string s st
  else if IsLetter c then
    scan_word s c st
  else if (c == "-") || IsDigit c then
    scan_number s st
  else
    Ret (emit st UNKNOWN (string_of_byte c) (i + 1)).

(** [for i := 0; i < n; { switch ... }].  Every iteration advances [i]
    ([step_advances]), so [n - i] units of fuel cover the rest of the input
    (see [scan_loop_eq]). *)
Fixpoint scan_loop (fuel : nat) (s : gostring) (st : ScanState)
  : go ScanState :=
  match fuel with
  | O => Ret st
  | S fuel' =>
      match nth_error s (pos st) with
      | None => Ret st
      | Some c => st' <- step s c st ;; scan_loop fuel' s st'
      end
  end.

Definition scan_init : ScanState := mkScan 0 false [].

Definition scan (s : gostring) : go (list Token) :=
  st <- scan_loop (length s) s scan_init ;;
  Ret (result st).

(** ** The renderer *)

(** [fmt.Printf] of a text without verbs. *)
Definition Printf (text : gostring) (stdout : gostring) : gostring :=
  stdout ++ text.

(** [fmt.Printf] of the span format: an opening tag whose style attribute
    is [color:%s] for [color], then [%s] for [lexeme], then the closing
    tag. *)
Definition printSpanTags (color lexeme : gostring) (stdout : gostring)
  : gostring :=
  stdout ++ lit "<span style=" ++ [dquote] ++ lit "color:" ++ color
         ++ [dquote] ++ lit ">" ++ lexeme ++ lit "</span>".

(** [for i := 0; i < num; i++ { fmt.Printf("  ") }] *)
Fixpoint printIndent_loop (fuel : nat) (i num : Z) (stdout : gostring)
  : gostring :=
  match fuel with
  | O => stdout
  | S fuel' =>
      if (i <? num)%Z
      then printIndent_loop fuel' (i + 1)%Z num (Printf (lit "  ") stdout)
      else stdout
  end.

Definition printIndent (num : Z) (stdout : gostring) : gostring :=
  printIndent_loop (Z.to_nat num) 0%Z num stdout.

(** The [switch t.lexeme[i]] of the STRING case: what is put in the span. *)
Definition string_char (c : ascii) : gostring :=
  if c == "<" then lit "&lt;"
  else if c == ">" then lit "&gt;"
  else if c == "&" then lit "&amp;"
  else if c == dquote then lit "&quot;"
  else if c == "'" then lit "&apos;"
  else string_of_byte c.

(** [for i := 0; i < len(t.lexeme); i++ { switch t.lexeme[i] ... }] *)
Definition print_string (lx : gostring) (stdout : gostring) : gostring :=
  fold_left (fun out c => printSpanTags (kindColor STRING) (string_char c) out)
            lx stdout.

(** The variables of [colorizedPrint]'s loop: standard output and
    [braceCount]. *)
Record RenderState : Type := mkRender {
  stdout : gostring;
  braceCount : Z
}.

(** The [switch t.kind] of [colorizedPrint]. *)
Definition render_token (r : RenderState) (t : Token) : RenderState :=
  let out := stdout r in
  let braceCount := braceCount r in
  match kind t with
  | LEFT_BRACE =>
      let out := Printf [newline] out in
      let out := printIndent braceCount out in
      let out := printSpanTags (kindColor (kind t)) (lexeme t) out in
      let braceCount := (braceCount + 1)%Z in
      let out := Printf [newline] out in
      let out := printIndent braceCount out in
      mkRender out braceCount
  | RIGHT_BRACE =>
      let out := Printf [newline] out in
      let braceCount := (braceCount - 1)%Z in
      let out := printIndent braceCount out in
      let out := printSpanTags (kindColor (kind t)) (lexeme t) out in
      let out := Printf [newline] out in
      let out := printIndent braceCount out in
      mkRender out braceCount
  | COLON =>
      let out := Printf (lit " ") out in
      let out := printSpanTags (kindColor (kind t)) (lexeme t) out in
      let out := Printf (lit " ") out in
      mkRender out braceCount
  | OBJECT_COMMA =>
      let out := printSpanTags (kindColor (kind t)) (lexeme t) out in
      let out := Printf [newline] out in
      let out := printIndent braceCount out in
      mkRender out braceCount
  | ARRAY_COMMA =>
      let out := printSpanTags (kindColor (kind t)) (lexeme t) out in
      let out := Printf (lit " ") out in
      mkRender out braceCount
  | STRING =>
      mkRender (print_string (lexeme t) out) braceCount
  | UNKNOWN =>
      mkRender out braceCount
  | _ =>
      mkRender (printSpanTags (kindColor (kind t)) (lexeme t) out) braceCount
  end.

Definition span_open : gostring :=
  lit "<span style=" ++ [dquote]
      ++ lit "font-family:monospace; white-space:pre" ++ [dquote] ++ lit ">".

Definition span_close : gostring := lit "</span>".

Definition render_tokens (tokens : list Token) (r : RenderState)
  : RenderState :=
  fold_left render_token tokens r.

(** The state in which [colorizedPrint] enters its loop: the opening tag
    of the container is written, [braceCount] is zero. *)
Definition render_init : RenderState := mkRender (Printf span_open []) 0%Z.

(** [colorizedPrint], from an empty standard output. *)
Definition colorizedPrint (tokens : list Token) : gostring :=
  let r := render_tokens tokens render_init in
  Printf span_close (stdout r).

(** [main] after the file is read: scan, then render. *)
Definition pipeline (json : gostring) : go gostring :=
  tokens <- scan json ;;
  Ret (colorizedPrint tokens).

(** ** Vocabulary of the properties *)

(** The kinds of the tokens cut from a string region. *)
Definition string_kind (t : Token) : Prop :=
  kind t = STRING \/ kind t = ESCAPE.

(** What [scan] makes of a stretch of input: a token that carries its
    source bytes as lexeme, an UNKNOWN token made from one byte [c] (its
    lexeme is [string(c)]), or a plain space, which is skipped. *)
Inductive Piece : Type :=
| PToken (t : Token)
| PByte (c : ascii)
| PSpace.

Definition piece_tokens (p : Piece) : list Token :=
  match p with
  | PToken t => [t]
  | PByte c => [mkToken UNKNOWN (string_of_byte c)]
  | PSpace => []
  end.

Definition piece_source (p : Piece) : gostring :=
  match p with
  | PToken t => lexeme t
  | PByte c => [c]
  | PSpace => [" "%char]
  end.

Definition tokens_of (ps : list Piece) : list Token :=
  flat_map piece_tokens ps.

Definition source_of (ps : list Piece) : gostring :=
  flat_map piece_source ps.

(** The lexemes of a token sequence, concatenated in order. *)
Definition lexemes (l : list Token) : gostring :=
  concat (map lexeme l).

Definition is_bracket (c : ascii) : bool := (c == "[") || (c == "]").

Definition structural (c : ascii) : bool :=
  (c == "{") || (c == "}") || (c == "[") || (c == "]")
  || (c == ",") || (c == ":").

(** The kind that corresponds to a structural character, a comma being
    classified by the toggle. *)
Definition structural_kind (toggle : bool) (c : ascii) : Kind :=
  if c == "{" then LEFT_BRACE
  else if c == "}" then RIGHT_BRACE
  else if c == "[" then LEFT_BRACKET
  else if c == "]" then RIGHT_BRACKET
  else if c == ":" then COLON
  else if toggle then ARRAY_COMMA else OBJECT_COMMA.

Definition bracket_token (t : Token) : bool :=
  match kind t with
  | LEFT_BRACKET | RIGHT_BRACKET => true
  | _ => false
  end.

(** Number of bracket tokens, each made from one bracket met by the outer
    loop. *)
Definition brackets (l : list Token) : nat :=
  length (filter bracket_token l).

(** The states that the outer loop of [scan] goes through on input [s]. *)
Inductive reachable (s : gostring) : ScanState -> Prop :=
| reach_init : reachable s scan_init
| reach_step (st st' : ScanState) (c : ascii) :
    reachable s st ->
    nth_error s (pos st) = Some c ->
    step s c st = Ret st' ->
    reachable s st'.

(** The states that the loop over a string region goes through on input
    [s]: the loop is entered when the outer loop is at a double quote, and
    iterates while it is at a byte that is not a double quote. *)
Inductive str_reachable (s : gostring) : StrState -> Prop :=
| str_reach_open (st : ScanState) :
    reachable s st ->
    nth_error s (pos st) = Some dquote ->
    str_reachable s (mkStr (pos st) (pos st + 1) (result st))
| str_reach_iter (q q' : StrState) (c : ascii) :
    str_reachable s q ->
    nth_error s (cur q) = Some c ->
    c <> dquote ->
    string_iter s c q = Ret q' ->
    str_reachable s q'.

Definition count_kind (k : Kind) (l : list Token) : nat :=
  length (filter (fun t => Kind_eqb (kind t) k) l).

(** One iteration of the outer loop that appends the single token [t]. *)
Definition emits_one (s : gostring) (st st' : ScanState) (t : Token) : Prop :=
  result st' = result st ++ [t] /\
  insideArray st' = insideArray st /\
  pos st < pos st' /\ pos st' <= length s /\
  lexeme t = sub s (pos st) (pos st').

(** Input made of ASCII bytes only. *)
Definition ascii_only (s : gostring) : Prop :=
  Forall (fun c => nat_of_ascii c < 128) s.

(** The source of a sequence of pieces without its skipped spaces. *)
Definition unspaced (ps : list Piece) : gostring :=
  flat_map (fun p => match p with PSpace => [] | _ => piece_source p end) ps.

(** A piece whose token, if any, has its own source bytes as lexeme. *)
Definition lexeme_piece (p : Piece) : Prop :=
  match p with
  | PByte _ => False
  | _ => True
  end.

(** [toks] and the skipped spaces reconstruct [s]: the input is cut into
    lexemes of the tokens, in order, and single plain spaces. *)
Definition reconstructs (s : gostring) (toks : list Token) : Prop :=
  exists ps, Forall lexeme_piece ps /\ tokens_of ps = toks /\ source_of ps = s.

(** The piece of an UNKNOWN token taken as a piece that carries its
    lexeme. *)
Definition lexeme_of_piece (p : Piece) : Piece :=
  match p with
  | PByte c => PToken (mkToken UNKNOWN (string_of_byte c))
  | _ => p
  end.

(** Inputs used below. *)

(** The seven bytes of the spec's Example 4: an object whose second string
    is not closed. *)
Definition unterminated_input : gostring :=
  lit "{" ++ [dquote] ++ lit "a" ++ [dquote] ++ lit ":" ++ [dquote] ++ lit "b".

(** A one-letter string literal, quotes included. *)
Definition quoted_a : gostring := [dquote] ++ lit "a" ++ [dquote].

(** The UTF-8 text of the copyright sign, U+00A9. *)
Definition copyright_sign : gostring := [ascii_of_nat 194; ascii_of_nat 169].

(** A string literal with a unicode escape between two letters. *)
Definition unicode_literal : gostring :=
  [dquote] ++ lit "a\u00e9b" ++ [dquote].

(** A string literal that holds one escaped quote. *)
Definition escaped_quote_literal : gostring :=
  [dquote; backslash; dquote; dquote].

(** The span written for a text [lx] of kind [k]. *)
Definition span (k : Kind) (lx : gostring) : gostring :=
  printSpanTags (kindColor k) lx [].

(** The characters that the STRING case of the renderer replaces. *)
Definition special (c : ascii) : bool :=
  (c == "<") || (c == ">") || (c == "&") || (c == dquote) || (c == "'").

(** The named HTML entity of a special character. *)
Definition named_entity (c : ascii) : gostring :=
  if c == "<" then lit "&lt;"
  else if c == ">" then lit "&gt;"
  else if c == "&" then lit "&amp;"
  else if c == dquote then lit "&quot;"
  else lit "&apos;".

(** The texts that [colorizedPrint] passes to [printSpanTags] for a token,
    one per span written. *)
Definition span_texts (t : Token) : list gostring :=
  match kind t with
  | STRING => map string_char (lexeme t)
  | UNKNOWN => []
  | _ => [lexeme t]
  end.

(** A span text that is a named entity, or holds no special character. *)
Definition entity_or_plain (x : gostring) : bool :=
  existsb (gostring_eqb x)
    [lit "&lt;"; lit "&gt;"; lit "&amp;"; lit "&quot;"; lit "&apos;"]
  || forallb (fun c => negb (special c)) x.

(** Every token cut from a string region of [s] is rendered with named
    entities only, never with a raw special character. *)
Definition string_content_escaped (s : gostring) : Prop :=
  forall toks t,
    scan s = Ret toks -> In t toks -> string_kind t ->
    forallb entity_or_plain (span_texts t) = true.

(** ** Token display *)

(** The struct [Token] as declared: its kind is an [int]. *)
Record RawToken : Type := mkRaw { raw_kind : Z; raw_lexeme : gostring }.

(** The constants of the [iota] block. *)
Definition kind_code (k : Kind) : Z :=
  match k with
  | LEFT_BRACE => 0
  | RIGHT_BRACE => 1
  | LEFT_BRACKET => 2
  | RIGHT_BRACKET => 3
  | COLON => 4
  | OBJECT_COMMA => 5
  | ARRAY_COMMA => 6
  | TRUE => 7
  | FALSE => 8
  | NULL => 9
  | STRING => 10
  | ESCAPE => 11
  | NUMBER => 12
  | LETTER => 13
  | UNKNOWN => 14
  end%Z.

(** [kindName[k]]: the lookup in the map, which gives the empty string for
    a key that the map does not hold. *)
Definition kindName (k : Z) : gostring :=
  match k with
  | 0 => lit "   LEFT_BRACE"
  | 1 => lit "  RIGHT_BRACE"
  | 2 => lit " LEFT_BRACKET"
  | 3 => lit "RIGHT_BRACKET"
  | 4 => lit "        COLON"
  | 5 => lit " OBJECT_COMMA"
  | 6 => lit "  ARRAY_COMMA"
  | 7 => lit "         TRUE"
  | 8 => lit "        FALSE"
  | 9 => lit "         NULL"
  | 10 => lit "       STRING"
  | 11 => lit "       ESCAPE"
  | 12 => lit "       NUMBER"
  | 13 => lit "    LETTER(S)"
  | 14 => lit "      UNKNOWN"
  | _ => []
  end%Z.

(** The method [String] of [Token]. *)
Definition Token_String (t : RawToken) : gostring :=
  kindName (raw_kind t) ++ lit " " ++ raw_lexeme t.

(** A token of the scanner as the struct it is. *)
Definition raw (t : Token) : RawToken :=
  mkRaw (kind_code (kind t)) (lexeme t).

(** ** Vocabulary of the further properties *)

(** The lexeme that every token of a structural or keyword kind has. *)
Definition fixed_lexeme (k : Kind) : option gostring :=
  match k with
  | LEFT_BRACE => Some (lit "{")
  | RIGHT_BRACE => Some (lit "}")
  | LEFT_BRACKET => Some (lit "[")
  | RIGHT_BRACKET => Some (lit "]")
  | COLON => Some (lit ":")
  | OBJECT_COMMA | ARRAY_COMMA => Some (lit ",")
  | TRUE => Some (lit "true")
  | FALSE => Some (lit "false")
  | NULL => Some (lit "null")
  | _ => None
  end.

(** A backslash and one byte, followed by four more bytes exactly when
    that byte is [u]. *)
Definition escape_shape (lx : gostring) : bool :=
  match lx with
  | b :: c :: rest =>
      (b == backslash)
      && (if c == "u" then length rest =? 4 else length rest =? 0)
  | _ => false
  end.

(** A minus sign or a digit, followed by number characters only. *)
Definition number_shape (lx : gostring) : bool :=
  match lx with
  | c :: _ => ((c == "-") || IsDigit c) && forallb isValidNumberCode lx
  | [] => false
  end.

(** One letter at least, and letters only. *)
Definition letter_shape (lx : gostring) : bool :=
  match lx with
  | _ :: _ => forallb IsLetter lx
  | [] => false
  end.

(** The bytes that reach the [default] clause of the outer switch. *)
Definition unknown_byte (c : ascii) : bool :=
  negb (c == " ") && negb (structural c) && negb (c == dquote)
  && negb (IsLetter c) && negb ((c == "-") || IsDigit c).

(** What the lexeme of a token of each kind looks like. *)
Definition wf_token (t : Token) : Prop :=
  match kind t with
  | STRING => ~ In backslash (lexeme t)
  | ESCAPE => escape_shape (lexeme t) = true
  | NUMBER => number_shape (lexeme t) = true
  | LETTER => letter_shape (lexeme t) = true
  | UNKNOWN => exists c, unknown_byte c = true /\ lexeme t = string_of_byte c
  | k => fixed_lexeme k = Some (lexeme t)
  end.

(** Every comma of [l] is an ARRAY_COMMA when an odd number of bracket
    tokens stand before it, counting from the toggle [toggle], and an
    OBJECT_COMMA otherwise. *)
Fixpoint commas_by_parity (toggle : bool) (l : list Token) : bool :=
  match l with
  | [] => true
  | t :: l' =>
      match kind t with
      | LEFT_BRACKET | RIGHT_BRACKET => commas_by_parity (negb toggle) l'
      | OBJECT_COMMA => negb toggle && commas_by_parity toggle l'
      | ARRAY_COMMA => toggle && commas_by_parity toggle l'
      | _ => commas_by_parity toggle l'
      end
  end.

(** The last four bytes of [s] begin with [t] or [n] and are neither
    [true] nor [null]. *)
Definition truncated_word (s : gostring) : Prop :=
  4 <= length s /\
  (nth_error s (length s - 4) = Some "t"%char \/
   nth_error s (length s - 4) = Some "n"%char) /\
  sub s (length s - 4) (length s) <> lit "true" /\
  sub s (length s - 4) (length s) <> lit "null".


(** A successful result mapped by [f]. *)
Definition go_map {A B : Type} (f : A -> B) (m : go A) : go B :=
  match m with
  | Ret a => Ret (f a)
  | Panics p => Panics p
  end.

(** The states of the two loops, one byte further in the input. *)
Definition shift_str (q : StrState) : StrState :=
  mkStr (start q + 1) (cur q + 1) (toks q).

Definition shift_scan (st : ScanState) : ScanState :=
  mkScan (pos st + 1) (insideArray st) (result st).

(** What the renderer writes for [l] when it starts at depth [d], and the
    depth it ends at. *)
Definition body (l : list Token) (d : Z) : gostring :=
  stdout (render_tokens l (mkRender [] d)).

Definition depth_after (l : list Token) (d : Z) : Z :=
  braceCount (render_tokens l (mkRender [] d)).

Definition is_unknown (t : Token) : bool := Kind_eqb (kind t) UNKNOWN.

(** ** The output, written out *)

(** The text of a span element of colour [color] that holds [text]. *)
Definition html_span (color text : gostring) : gostring :=
  lit "<span style=" ++ [dquote] ++ lit "color:" ++ color ++ [dquote]
      ++ lit ">" ++ text ++ lit "</span>".

(** The opening tag of the container element. *)
Definition container_open : gostring :=
  lit "<span style=" ++ [dquote]
      ++ lit "font-family:monospace; white-space:pre" ++ [dquote] ++ lit ">".

(** What a browser shows of a markup: the bytes outside the tags. *)
Fixpoint strip_tags (in_tag : bool) (l : gostring) : gostring :=
  match l with
  | [] => []
  | c :: l' =>
      if in_tag then strip_tags (negb (c == ">")) l'
      else if c == "<" then strip_tags true l'
      else c :: strip_tags false l'
  end.

(** A piece of output: layout, made of spaces and newlines, or a span. *)
Inductive Markup : Type :=
| MSpace (w : gostring)
| MSpan (color text : gostring).

Definition markup_text (m : Markup) : gostring :=
  match m with
  | MSpace w => w
  | MSpan color text => html_span color text
  end.

Definition blank (c : ascii) : bool := (c == " ") || (c == newline).

(** Layout is blank; a span has a colour without special character and a
    text that is a named entity or holds no special character. *)
Definition safe_markup (m : Markup) : bool :=
  match m with
  | MSpace w => forallb blank w
  | MSpan color text =>
      forallb (fun c => negb (special c)) color && entity_or_plain text
  end.

(** A piece made from a byte that [string] leaves as it is. *)
Definition faithful_piece (p : Piece) : Prop :=
  match p with
  | PByte c => nat_of_ascii c < 128
  | _ => True
  end.

(** * Properties *)

(** ** The error monad, indexing and slicing *)

Lemma bind_Ret {A B : Type} (m : go A) (k : A -> go B) (b : B) :
  bind m k = Ret b -> exists a, m = Ret a /\ k a = Ret b.
Proof.
  destruct m as [a|p]; simpl; intros H; [eauto | discriminate].
Qed.

Lemma slice_Ret (s : gostring) (lo hi : nat) (x : gostring) :
  slice s lo hi = Ret x -> lo <= hi /\ hi <= length s /\ x = sub s lo hi.
Proof.
  unfold slice.
  destruct (lo <=? hi) eqn:E1; destruct (hi <=? length s) eqn:E2;
    simpl; intros H; try discriminate.
  apply Nat.leb_le in E1. apply Nat.leb_le in E2.
  injection H as <-. auto.
Qed.

Lemma slice_ok (s : gostring) (lo hi : nat) :
  lo <= hi -> hi <= length s -> slice s lo hi = Ret (sub s lo hi).
Proof.
  intros H1 H2. unfold slice.
  apply Nat.leb_le in H1. apply Nat.leb_le in H2.
  now rewrite H1, H2.
Qed.

Lemma slice_beyond (s : gostring) (lo hi : nat) :
  length s < hi -> slice s lo hi = Panics SliceBoundsOutOfRange.
Proof.
  intros H. unfold slice.
  apply Nat.leb_gt in H. rewrite H. now rewrite andb_false_r.
Qed.

Lemma nth_error_lt (s : gostring) (i : nat) (c : ascii) :
  nth_error s i = Some c -> i < length s.
Proof.
  intros H. apply nth_error_Some. congruence.
Qed.

Lemma sub_length (s : gostring) (lo hi : nat) :
  lo <= hi -> hi <= length s -> length (sub s lo hi) = hi - lo.
Proof.
  intros H1 H2. unfold sub.
  rewrite length_firstn, length_skipn. lia.
Qed.

Lemma sub_empty (s : gostring) (i : nat) : sub s i i = [].
Proof. unfold sub. now rewrite Nat.sub_diag. Qed.

Lemma firstn_plus {A : Type} (a b : nat) (l : list A) :
  firstn (a + b) l = firstn a l ++ firstn b (skipn a l).
Proof.
  revert l. induction a as [|a IH]; intros [|x l]; simpl; trivial.
  - now rewrite firstn_nil.
  - now rewrite IH.
Qed.

Lemma sub_app (s : gostring) (lo mid hi : nat) :
  lo <= mid -> mid <= hi -> sub s lo mid ++ sub s mid hi = sub s lo hi.
Proof.
  intros H1 H2. unfold sub.
  replace (hi - lo) with ((mid - lo) + (hi - mid)) by lia.
  rewrite firstn_plus. f_equal.
  rewrite skipn_skipn.
  replace (mid - lo + lo) with mid by lia. reflexivity.
Qed.

Lemma sub_one (s : gostring) (i : nat) (c : ascii) :
  nth_error s i = Some c -> sub s i (i + 1) = [c].
Proof.
  unfold sub. replace (i + 1 - i) with 1 by lia.
  revert i. induction s as [|a s IH]; intros [|i] H; simpl in *;
    try discriminate.
  - now inversion H.
  - now apply IH.
Qed.

Lemma sub_full (s : gostring) : sub s 0 (length s) = s.
Proof.
  unfold sub. rewrite Nat.sub_0_r. simpl. apply firstn_all.
Qed.

Lemma sub_cons (s : gostring) (lo hi : nat) (c : ascii) :
  nth_error s lo = Some c -> lo < hi ->
  sub s lo hi = c :: sub s (lo + 1) hi.
Proof.
  intros H1 H2.
  rewrite <- (sub_app s lo (lo + 1) hi) by lia.
  now rewrite (sub_one s lo c H1).
Qed.

Lemma sub_snoc (s : gostring) (lo hi : nat) (c : ascii) :
  nth_error s hi = Some c -> lo <= hi ->
  sub s lo (hi + 1) = sub s lo hi ++ [c].
Proof.
  intros H1 H2.
  rewrite <- (sub_app s lo hi (hi + 1)) by lia.
  now rewrite (sub_one s hi c H1).
Qed.

Lemma gostring_eqb_eq (a b : gostring) : gostring_eqb a b = true <-> a = b.
Proof.
  unfold gostring_eqb. destruct (list_eq_dec ascii_dec a b); split;
    intros; congruence.
Qed.

(** Unfolds a successful monadic computation in hypothesis [H]. *)
Ltac inv_go H :=
  repeat match type of H with
  | bind _ _ = Ret _ =>
      let a := fresh "a" in
      let Ha := fresh "Ha" in
      apply bind_Ret in H; destruct H as (a & Ha & H)
  end.

(** Replaces the result of every successful slice by its value and records
    the bounds that made it succeed. *)
Ltac inv_slices :=
  repeat match goal with
  | H : slice _ _ _ = Ret ?x |- _ =>
      apply slice_Ret in H; destruct H as (? & ? & ?); subst x
  end.

(** ** The loops run to their end

    Each loop is given [n - i] units of fuel.  The lemmas [*_fuel] show
    that any larger amount gives the same result, and the lemmas [*_eq]
    that the loop satisfies the unfolding equation of the source's [for]
    statement, in which fuel plays no part. *)

Lemma run_loop_fuel (p : ascii -> bool) (s : gostring) (f1 f2 i : nat) :
  length s - i <= f1 -> length s - i <= f2 ->
  run_loop p f1 s i = run_loop p f2 s i.
Proof.
  revert f2 i. induction f1 as [|f1 IH]; intros [|f2] i H1 H2; simpl; trivial.
  - assert (E : nth_error s i = None) by (apply nth_error_None; lia).
    now rewrite E.
  - assert (E : nth_error s i = None) by (apply nth_error_None; lia).
    now rewrite E.
  - destruct (nth_error s i); trivial.
    destruct (p a); trivial. apply IH; lia.
Qed.

Lemma run_loop_eq (p : ascii -> bool) (s : gostring) (i : nat) :
  run_loop p (length s - i) s i =
  match nth_error s i with
  | None => i
  | Some c => if p c then run_loop p (length s - (i + 1)) s (i + 1) else i
  end.
Proof.
  destruct (nth_error s i) as [c|] eqn:E.
  - pose proof (nth_error_lt _ _ _ E) as L.
    destruct (length s - i) as [|f] eqn:F; [lia|].
    simpl. rewrite E.
    destruct (p c); trivial. apply run_loop_fuel; lia.
  - destruct (length s - i); simpl; now rewrite ?E.
Qed.

Lemma run_loop_bounds (p : ascii -> bool) (s : gostring) (fuel i : nat) :
  i <= length s ->
  i <= run_loop p fuel s i /\ run_loop p fuel s i <= length s.
Proof.
  revert i. induction fuel as [|f IH]; intros i H; simpl; [lia|].
  destruct (nth_error s i) as [c|] eqn:E; [|lia].
  destruct (p c); [|lia].
  apply nth_error_lt in E. destruct (IH (i + 1)); lia.
Qed.

Lemma run_loop_first (p : ascii -> bool) (s : gostring) (i : nat) (c : ascii) :
  nth_error s i = Some c -> p c = true ->
  i < run_loop p (length s - i) s i /\ run_loop p (length s - i) s i <= length s.
Proof.
  intros E P. rewrite run_loop_eq, E, P.
  apply nth_error_lt in E.
  destruct (run_loop_bounds p s (length s - (i + 1)) (i + 1)); lia.
Qed.

Lemma string_iter_advances (s : gostring) (c : ascii) (q q' : StrState) :
  string_iter s c q = Ret q' -> cur q < cur q'.
Proof.
  unfold string_iter. destruct (c == backslash).
  - intros H. inv_go H.
    destruct (a0 == "u"); inv_go H; injection H as <-; simpl; lia.
  - intros H. injection H as <-. simpl. lia.
Qed.

Lemma string_loop_fuel (s : gostring) (f1 f2 : nat) (q : StrState) :
  length s - cur q <= f1 -> length s - cur q <= f2 ->
  string_loop f1 s q = string_loop f2 s q.
Proof.
  revert f2 q. induction f1 as [|f1 IH]; intros [|f2] q H1 H2; simpl; trivial.
  - assert (E : nth_error s (cur q) = None) by (apply nth_error_None; lia).
    now rewrite E.
  - assert (E : nth_error s (cur q) = None) by (apply nth_error_None; lia).
    now rewrite E.
  - destruct (nth_error s (cur q)) as [c|]; trivial.
    destruct (c == dquote); trivial.
    destruct (string_iter s c q) as [q'|e] eqn:I; simpl; trivial.
    apply string_iter_advances in I. apply IH; lia.
Qed.

Lemma string_loop_eq (s : gostring) (q : StrState) :
  string_loop (length s - cur q) s q =
  match nth_error s (cur q) with
  | None => Ret q
  | Some c =>
      if c == dquote then Ret q
      else q' <- string_iter s c q ;; string_loop (length s - cur q') s q'
  end.
Proof.
  destruct (nth_error s (cur q)) as [c|] eqn:E.
  - pose proof (nth_error_lt _ _ _ E) as L.
    destruct (length s - cur q) as [|f] eqn:F; [lia|].
    simpl. rewrite E. destruct (c == dquote); trivial.
    destruct (string_iter s c q) as [q'|e] eqn:I; simpl; trivial.
    apply string_iter_advances in I. apply string_loop_fuel; lia.
  - destruct (length s - cur q); simpl; now rewrite ?E.
Qed.

(** ** The string region *)

Lemma string_iter_Ret (s : gostring) (c : ascii) (q q' : StrState) :
  start q <= cur q ->
  string_iter s c q = Ret q' ->
  (c <> backslash /\ q' = mkStr (start q) (cur q + 1) (toks q)) \/
  (c = backslash /\ exists e,
      cur q + 2 <= e /\ e <= length s /\
      q' = mkStr e e (toks q ++ [mkToken STRING (sub s (start q) (cur q));
                                  mkToken ESCAPE (sub s (cur q) e)])).
Proof.
  intros L. unfold string_iter.
  destruct (c == backslash) eqn:E.
  - apply Ascii.eqb_eq in E. intros H. right. split; trivial.
    inv_go H. apply slice_Ret in Ha as (_ & _ & ->).
    destruct (a0 == "u"); inv_go H; injection H as <-; inv_slices.
    + exists (cur q + 1 + 5). rewrite <- app_assoc. simpl.
      repeat split; trivial; lia.
    + exists (cur q + 1 + 1). rewrite <- app_assoc. simpl.
      repeat split; trivial; lia.
  - apply Ascii.eqb_neq in E. intros H. injection H as <-. now left.
Qed.

Lemma string_loop_exit (fuel : nat) (s : gostring) (q q' : StrState) :
  length s - cur q <= fuel ->
  string_loop fuel s q = Ret q' ->
  nth_error s (cur q') = None \/ nth_error s (cur q') = Some dquote.
Proof.
  revert q. induction fuel as [|f IH]; intros q F; simpl.
  - intros H. injection H as <-. left. apply nth_error_None. lia.
  - destruct (nth_error s (cur q)) as [c|] eqn:E.
    + destruct (c == dquote) eqn:D.
      * apply Ascii.eqb_eq in D. subst c. intros H. injection H as <-. now right.
      * intros H. inv_go H. apply IH in H; trivial.
        apply string_iter_advances in Ha. lia.
    + intros H. injection H as <-. now left.
Qed.

Lemma string_loop_spec (fuel : nat) (s : gostring) (q q' : StrState) :
  string_loop fuel s q = Ret q' ->
  start q <= cur q -> cur q <= length s ->
  exists new,
    toks q' = toks q ++ new /\
    start q <= start q' /\ start q' <= cur q' /\
    cur q <= cur q' /\ cur q' <= length s /\
    lexemes new = sub s (start q) (start q') /\
    Forall string_kind new /\
    (new = [] /\ start q' = start q \/
     exists j rest, cur q <= j /\
                    new = mkToken STRING (sub s (start q) j) :: rest).
Proof.
  assert (Base : forall q0 : StrState,
    start q0 <= cur q0 -> cur q0 <= length s ->
    exists new,
      toks q0 = toks q0 ++ new /\
      start q0 <= start q0 /\ start q0 <= cur q0 /\
      cur q0 <= cur q0 /\ cur q0 <= length s /\
      lexemes new = sub s (start q0) (start q0) /\
      Forall string_kind new /\
      (new = [] /\ start q0 = start q0 \/
       exists j rest, cur q0 <= j /\
                      new = mkToken STRING (sub s (start q0) j) :: rest)).
  { intros q0 L1 L2. exists []. rewrite app_nil_r, sub_empty.
    repeat split; auto. }
  revert q. induction fuel as [|f IH]; intros q; simpl.
  - intros H. injection H as <-. apply Base.
  - destruct (nth_error s (cur q)) as [c|] eqn:E.
    2:{ intros H. injection H as <-. apply Base. }
    destruct (c == dquote).
    { intros H. injection H as <-. apply Base. }
    intros H L1 L2. inv_go H. apply nth_error_lt in E.
    apply string_iter_Ret in Ha; trivial.
    destruct Ha as [(_ & ->) | (-> & e & E1 & E2 & ->)].
    + apply IH in H; simpl; try lia.
      destruct H as (new & T & S1 & S2 & C1 & C2 & X & K & F).
      simpl in *. exists new. repeat split; trivial; try lia.
      destruct F as [F | (j & rest & J & F)]; [now left|].
      right. exists j, rest. split; [lia | trivial].
    + apply IH in H; simpl; try lia.
      destruct H as (new & T & S1 & S2 & C1 & C2 & X & K & _).
      simpl in *.
      exists ([mkToken STRING (sub s (start q) (cur q));
               mkToken ESCAPE (sub s (cur q) e)] ++ new).
      rewrite app_assoc. repeat split; trivial; try lia.
      * unfold lexemes in *. simpl. rewrite X, app_assoc.
        rewrite !sub_app; trivial; try lia.
      * simpl. constructor; [now left|]. constructor; [now right | trivial].
      * right. exists (cur q), (mkToken ESCAPE (sub s (cur q) e) :: new).
        split; [lia | reflexivity].
Qed.

Lemma scan_string_spec (s : gostring) (st st' : ScanState) :
  nth_error s (pos st) = Some dquote ->
  scan_string s st = Ret st' ->
  exists new,
    result st' = result st ++ new /\
    insideArray st' = insideArray st /\
    pos st + 2 <= pos st' /\ pos st' <= length s /\
    lexemes new = sub s (pos st) (pos st') /\
    Forall string_kind new /\
    nth_error s (pos st' - 1) = Some dquote /\
    (exists x rest, new = mkToken STRING (dquote :: x) :: rest) /\
    (exists front y, new = front ++ [mkToken STRING (y ++ [dquote])]).
Proof.
  intros Q H. unfold scan_string in H. simpl in H. inv_go H.
  rename a into q. pose proof (nth_error_lt _ _ _ Q) as L.
  apply slice_Ret in Ha0 as (B1 & B2 & ->). injection H as <-. simpl.
  pose proof (string_loop_exit _ _ _ _ (Nat.le_refl _) Ha) as X.
  destruct X as [X | X]; [apply nth_error_None in X; lia|].
  apply string_loop_spec in Ha; simpl; try lia.
  destruct Ha as (new & T & S1 & S2 & C1 & C2 & Lx & K & F). simpl in *.
  exists (new ++ [mkToken STRING (sub s (start q) (cur q + 1))]).
  rewrite T, <- app_assoc. repeat split; trivial; try lia.
  - unfold lexemes in *. rewrite map_app, concat_app, Lx. simpl.
    rewrite app_nil_r. apply sub_app; lia.
  - apply Forall_app. split; trivial.
    constructor; [now left | constructor].
  - now rewrite Nat.add_sub.
  - destruct F as [(-> & F) | (j & rest & J & ->)].
    + rewrite F. simpl.
      rewrite (sub_cons s (pos st) (cur q + 1) dquote); trivial; try lia.
      eauto.
    + rewrite (sub_cons s (pos st) j dquote); trivial; try lia.
      simpl. eauto.
  - exists new, (sub s (start q) (cur q)).
    rewrite (sub_snoc s (start q) (cur q) dquote); trivial.
Qed.

(** ** Words and numbers *)

Lemma letter_clause_spec (s : gostring) (c : ascii) (st st' : ScanState) :
  nth_error s (pos st) = Some c -> IsLetter c = true ->
  letter_clause s st = Ret st' ->
  exists t, emits_one s st st' t /\ kind t = LETTER.
Proof.
  intros E P H. unfold letter_clause in H. inv_go H. inv_slices.
  injection H as <-.
  destruct (run_loop_first IsLetter s (pos st) c E P) as [L1 L2].
  fold (letter_loop s (pos st)) in L1, L2.
  exists (mkToken LETTER (sub s (pos st) (letter_loop s (pos st)))).
  split; [|reflexivity].
  unfold emits_one, emit. simpl. auto.
Qed.

Lemma false_clause_spec (s : gostring) (c : ascii) (st st' : ScanState) :
  nth_error s (pos st) = Some c -> IsLetter c = true ->
  false_clause s st = Ret st' ->
  exists t, emits_one s st st' t /\ (kind t = FALSE \/ kind t = LETTER).
Proof.
  intros E P H. unfold false_clause in H. inv_go H.
  destruct (gostring_eqb a (lit "false")).
  - inv_go H. inv_slices. injection H as <-.
    exists (mkToken FALSE (sub s (pos st) (pos st + 5))).
    split; [|left; reflexivity].
    unfold emits_one, emit. simpl. repeat split; trivial; lia.
  - destruct (letter_clause_spec s c st st' E P H) as (t & T & K). eauto.
Qed.

Lemma true_null_clause_spec (s : gostring) (c : ascii) (st st' : ScanState) :
  nth_error s (pos st) = Some c -> IsLetter c = true ->
  true_null_clause s st = Ret st' ->
  exists t, emits_one s st st' t /\
            (kind t = TRUE \/ kind t = NULL \/ kind t = FALSE \/ kind t = LETTER).
Proof.
  intros E P H. unfold true_null_clause in H. inv_go H.
  destruct (gostring_eqb a (lit "true")).
  - inv_go H. inv_slices. injection H as <-.
    exists (mkToken TRUE (sub s (pos st) (pos st + 4))).
    split; [|left; reflexivity].
    unfold emits_one, emit. simpl. repeat split; trivial; lia.
  - inv_go H. destruct (gostring_eqb a0 (lit "null")).
    + inv_go H. inv_slices. injection H as <-.
      exists (mkToken NULL (sub s (pos st) (pos st + 4))).
      split; [|right; left; reflexivity].
      unfold emits_one, emit. simpl. repeat split; trivial; lia.
    + destruct (false_clause_spec s c st st' E P H) as (t & T & K).
      exists t. split; [trivial | tauto].
Qed.

Lemma scan_word_spec (s : gostring) (c : ascii) (st st' : ScanState) :
  nth_error s (pos st) = Some c -> IsLetter c = true ->
  scan_word s c st = Ret st' ->
  exists t, emits_one s st st' t /\
            (kind t = TRUE \/ kind t = NULL \/ kind t = FALSE \/ kind t = LETTER).
Proof.
  intros E P H. unfold scan_word in H.
  destruct ((pos st + 3 <? length s) && ((c == "t") || (c == "n"))).
  - now apply true_null_clause_spec with (c := c).
  - destruct ((pos st + 4 <? length s) && (c == "f")).
    + destruct (false_clause_spec s c st st' E P H) as (t & T & K).
      exists t. split; [trivial | tauto].
    + destruct (letter_clause_spec s c st st' E P H) as (t & T & K).
      exists t. split; [trivial | tauto].
Qed.

Lemma scan_number_spec (s : gostring) (c : ascii) (st st' : ScanState) :
  nth_error s (pos st) = Some c -> (c == "-") || IsDigit c = true ->
  scan_number s st = Ret st' ->
  exists t, emits_one s st st' t /\ kind t = NUMBER.
Proof.
  intros E P H. unfold scan_number in H. inv_go H. inv_slices.
  injection H as <-.
  assert (V : isValidNumberCode c = true).
  { unfold isValidNumberCode. apply orb_true_iff in P as [P | P]; rewrite P.
    - now rewrite !orb_true_r.
    - reflexivity. }
  destruct (run_loop_first isValidNumberCode s (pos st) c E V) as [L1 L2].
  fold (number_loop s (pos st)) in L1, L2.
  exists (mkToken NUMBER (sub s (pos st) (number_loop s (pos st)))).
  split; [|reflexivity].
  unfold emits_one, emit. simpl. auto.
Qed.

(** ** One iteration of the outer loop *)

Lemma brackets_app (l m : list Token) :
  brackets (l ++ m) = brackets l + brackets m.
Proof.
  unfold brackets. now rewrite filter_app, length_app.
Qed.

Lemma brackets_string_kind (l : list Token) :
  Forall string_kind l -> brackets l = 0.
Proof.
  unfold brackets. induction 1 as [|t l K _ IH]; simpl; trivial.
  unfold bracket_token. destruct K as [K | K]; rewrite K; exact IH.
Qed.

Lemma tokens_of_PToken (l : list Token) : tokens_of (map PToken l) = l.
Proof.
  unfold tokens_of. induction l as [|t l IH]; simpl; congruence.
Qed.

Lemma source_of_PToken (l : list Token) : source_of (map PToken l) = lexemes l.
Proof.
  unfold source_of, lexemes. induction l as [|t l IH]; simpl; congruence.
Qed.

(** Closes the case of [step] that appends one token for the byte [c]. *)
Ltac single_piece p One :=
  exists [p]; simpl; rewrite ?app_nil_r, ?One, ?xorb_false_r, ?xorb_true_r;
  repeat split; trivial; lia.

Lemma step_spec (s : gostring) (c : ascii) (st st' : ScanState) :
  nth_error s (pos st) = Some c ->
  step s c st = Ret st' ->
  exists ps,
    result st' = result st ++ tokens_of ps /\
    source_of ps = sub s (pos st) (pos st') /\
    pos st < pos st' /\ pos st' <= length s /\
    insideArray st' = xorb (insideArray st) (is_bracket c) /\
    brackets (tokens_of ps) = (if is_bracket c then 1 else 0).
Proof.
  intros E H.
  pose proof (nth_error_lt _ _ _ E) as L.
  pose proof (sub_one s _ c E) as One.
  unfold step in H.
  destruct (c == " ") eqn:C1.
  { apply Ascii.eqb_eq in C1. subst c. injection H as <-.
    single_piece PSpace One. }
  destruct (c == "{") eqn:C2.
  { apply Ascii.eqb_eq in C2. subst c. injection H as <-.
    single_piece (PToken (mkToken LEFT_BRACE (lit "{"))) One. }
  destruct (c == "}") eqn:C3.
  { apply Ascii.eqb_eq in C3. subst c. injection H as <-.
    single_piece (PToken (mkToken RIGHT_BRACE (lit "}"))) One. }
  destruct (c == "[") eqn:C4.
  { apply Ascii.eqb_eq in C4. subst c. injection H as <-.
    single_piece (PToken (mkToken LEFT_BRACKET (lit "["))) One. }
  destruct (c == "]") eqn:C5.
  { apply Ascii.eqb_eq in C5. subst c. injection H as <-.
    single_piece (PToken (mkToken RIGHT_BRACKET (lit "]"))) One. }
  assert (B : is_bracket c = false) by (unfold is_bracket; now rewrite C4, C5).
  rewrite B, xorb_false_r.
  destruct (c == ",") eqn:C6.
  { apply Ascii.eqb_eq in C6. subst c.
    destruct (insideArray st) eqn:IA; simpl in H; injection H as <-.
    - single_piece (PToken (mkToken ARRAY_COMMA (lit ","))) One.
    - single_piece (PToken (mkToken OBJECT_COMMA (lit ","))) One. }
  simpl in H.
  destruct (c == ":") eqn:C7.
  { apply Ascii.eqb_eq in C7. subst c. injection H as <-.
    single_piece (PToken (mkToken COLON (lit ":"))) One. }
  destruct (c == dquote) eqn:C8.
  { apply Ascii.eqb_eq in C8. subst c.
    destruct (scan_string_spec s st st' E H)
      as (new & R & I & P1 & P2 & Lx & K & _).
    exists (map PToken new).
    rewrite tokens_of_PToken, source_of_PToken, brackets_string_kind; trivial.
    repeat split; trivial; lia. }
  destruct (IsLetter c) eqn:C9.
  { destruct (scan_word_spec s c st st' E C9 H)
      as (t & (R & I & P1 & P2 & Lx) & K).
    exists [PToken t]. unfold brackets, bracket_token. simpl.
    rewrite app_nil_r.
    repeat split; trivial.
    destruct K as [K | [K | [K | K]]]; now rewrite K. }
  destruct ((c == "-") || IsDigit c) eqn:C10.
  { destruct (scan_number_spec s c st st' E C10 H)
      as (t & (R & I & P1 & P2 & Lx) & K).
    exists [PToken t]. unfold brackets, bracket_token. simpl.
    rewrite app_nil_r, K.
    repeat split; trivial. }
  injection H as <-.
  single_piece (PByte c) One.
Qed.

Lemma step_dquote (s : gostring) (st : ScanState) :
  step s dquote st = scan_string s st.
Proof. reflexivity. Qed.

Lemma step_advances (s : gostring) (c : ascii) (st st' : ScanState) :
  nth_error s (pos st) = Some c -> step s c st = Ret st' -> pos st < pos st'.
Proof.
  intros E H. destruct (step_spec s c st st' E H) as (ps & _ & _ & P & _).
  exact P.
Qed.

Lemma scan_loop_fuel (s : gostring) (f1 f2 : nat) (st : ScanState) :
  length s - pos st <= f1 -> length s - pos st <= f2 ->
  scan_loop f1 s st = scan_loop f2 s st.
Proof.
  revert f2 st. induction f1 as [|f1 IH]; intros [|f2] st H1 H2; simpl; trivial.
  - assert (E : nth_error s (pos st) = None) by (apply nth_error_None; lia).
    now rewrite E.
  - assert (E : nth_error s (pos st) = None) by (apply nth_error_None; lia).
    now rewrite E.
  - destruct (nth_error s (pos st)) as [c|] eqn:E; trivial.
    destruct (step s c st) as [st'|e] eqn:I; simpl; trivial.
    apply step_advances in I; trivial. apply IH; lia.
Qed.

(** The unfolding equation of [for i := 0; i < n; { switch ... }]. *)
Lemma scan_loop_eq (s : gostring) (st : ScanState) :
  scan_loop (length s - pos st) s st =
  match nth_error s (pos st) with
  | None => Ret st
  | Some c => st' <- step s c st ;; scan_loop (length s - pos st') s st'
  end.
Proof.
  destruct (nth_error s (pos st)) as [c|] eqn:E.
  - pose proof (nth_error_lt _ _ _ E) as L.
    destruct (length s - pos st) as [|f] eqn:F; [lia|].
    simpl. rewrite E.
    destruct (step s c st) as [st'|e] eqn:I; simpl; trivial.
    apply step_advances in I; trivial. apply scan_loop_fuel; lia.
  - destruct (length s - pos st); simpl; now rewrite ?E.
Qed.

(** ** Reachable states *)

Lemma scan_loop_reachable (fuel : nat) (s : gostring) (st st' : ScanState) :
  reachable s st -> scan_loop fuel s st = Ret st' -> reachable s st'.
Proof.
  revert st. induction fuel as [|f IH]; intros st R; simpl.
  - intros H. now injection H as <-.
  - destruct (nth_error s (pos st)) as [c|] eqn:E.
    + intros H. inv_go H. apply IH in H; trivial.
      eapply reach_step; eauto.
    + intros H. now injection H as <-.
Qed.

Lemma scan_loop_end (fuel : nat) (s : gostring) (st st' : ScanState) :
  length s - pos st <= fuel ->
  scan_loop fuel s st = Ret st' -> length s <= pos st'.
Proof.
  revert st. induction fuel as [|f IH]; intros st F; simpl.
  - intros H. injection H as <-. lia.
  - destruct (nth_error s (pos st)) as [c|] eqn:E.
    + intros H. inv_go H. apply IH in H; trivial.
      apply step_advances in Ha; trivial. lia.
    + intros H. injection H as <-. now apply nth_error_None.
Qed.

Lemma reachable_pieces (s : gostring) (st : ScanState) :
  reachable s st ->
  pos st <= length s /\
  exists ps, tokens_of ps = result st /\ source_of ps = sub s 0 (pos st).
Proof.
  induction 1 as [|st st' c R (B & ps & T & S) E H].
  - split; [simpl; lia|]. exists []. split; trivial.
  - destruct (step_spec s c st st' E H) as (new & R' & S' & P1 & P2 & _).
    split; trivial.
    exists (ps ++ new). unfold tokens_of, source_of in *.
    rewrite !flat_map_app, T, S, R', S'.
    split; trivial. apply sub_app; lia.
Qed.

Lemma reachable_toggle (s : gostring) (st : ScanState) :
  reachable s st -> insideArray st = Nat.odd (brackets (result st)).
Proof.
  induction 1 as [|st st' c R IH E H]; trivial.
  destruct (step_spec s c st st' E H) as (new & R' & _ & _ & _ & I & B).
  rewrite I, R', brackets_app, B, IH.
  destruct (is_bracket c).
  - rewrite Nat.add_1_r, Nat.odd_succ, <- Nat.negb_odd. apply xorb_true_r.
  - rewrite Nat.add_0_r. apply xorb_false_r.
Qed.

(** A panic in one iteration of the outer loop is a panic of [scan]. *)
Lemma scan_loop_from_reachable (s : gostring) (st : ScanState) :
  reachable s st ->
  scan_loop (length s - pos st) s st = scan_loop (length s) s scan_init.
Proof.
  induction 1 as [|st st' c R IH E H].
  - simpl. now rewrite Nat.sub_0_r.
  - rewrite <- IH, (scan_loop_eq s st), E, H. reflexivity.
Qed.

Lemma scan_panics_from (s : gostring) (st : ScanState) (c : ascii) (p : panic) :
  reachable s st ->
  nth_error s (pos st) = Some c ->
  step s c st = Panics p ->
  scan s = Panics p.
Proof.
  intros R E H. unfold scan.
  rewrite <- (scan_loop_from_reachable s st R), scan_loop_eq, E, H.
  reflexivity.
Qed.

Lemma scan_loop_prefix (fuel : nat) (s : gostring) (st st' : ScanState) :
  scan_loop fuel s st = Ret st' -> exists more, result st' = result st ++ more.
Proof.
  revert st. induction fuel as [|f IH]; intros st; simpl.
  - intros H. injection H as <-. exists []. now rewrite app_nil_r.
  - destruct (nth_error s (pos st)) as [c|] eqn:E.
    + intros H. inv_go H.
      destruct (step_spec s c st a E Ha) as (ps & R & _).
      destruct (IH a H) as (more & M).
      exists (tokens_of ps ++ more). now rewrite M, R, app_assoc.
    + intros H. injection H as <-. exists []. now rewrite app_nil_r.
Qed.

(** The tokens made so far are a prefix of what [scan] returns. *)
Lemma reachable_prefix (s : gostring) (st : ScanState) (l : list Token) :
  reachable s st -> scan s = Ret l -> exists more, l = result st ++ more.
Proof.
  intros R H. unfold scan in H. inv_go H. injection H as <-.
  rewrite <- (scan_loop_from_reachable s st R) in Ha.
  now apply scan_loop_prefix in Ha.
Qed.

Lemma str_reachable_inv (s : gostring) (q : StrState) :
  str_reachable s q ->
  start q <= cur q /\ cur q <= length s /\
  exists st,
    reachable s st /\ nth_error s (pos st) = Some dquote /\
    string_loop (length s - cur q) s q =
    string_loop (length s - (pos st + 1)) s
      (mkStr (pos st) (pos st + 1) (result st)).
Proof.
  induction 1 as [st R E | q q' c Q (L1 & L2 & st & R & E & EQ) C D I].
  - simpl. apply nth_error_lt in E as L.
    split; [lia|]. split; [lia|]. exists st. auto.
  - pose proof (nth_error_lt _ _ _ C) as L.
    assert (B : start q' <= cur q' /\ cur q' <= length s).
    { apply string_iter_Ret in I; trivial.
      destruct I as [(_ & ->) | (_ & e & E1 & E2 & ->)]; simpl; lia. }
    destruct B as [B1 B2]. split; trivial. split; trivial.
    exists st. split; trivial. split; trivial.
    rewrite <- EQ, (string_loop_eq s q), C.
    apply Ascii.eqb_neq in D. now rewrite D, I.
Qed.

(** The tokens that the string loop holds are a prefix of what [scan]
    returns. *)
Lemma str_reachable_prefix (s : gostring) (q : StrState) (l : list Token) :
  str_reachable s q -> scan s = Ret l -> exists more, l = toks q ++ more.
Proof.
  intros Q H.
  destruct (str_reachable_inv s q Q) as (L1 & L2 & st & R & E & EQ).
  unfold scan in H. inv_go H. injection H as <-.
  rewrite <- (scan_loop_from_reachable s st R), scan_loop_eq, E in Ha.
  inv_go Ha. apply scan_loop_prefix in Ha as (more & M).
  rewrite step_dquote in Ha0. unfold scan_string in Ha0.
  cbv zeta in Ha0. cbn [cur] in Ha0.
  inv_go Ha0. injection Ha0 as <-. simpl in M.
  match goal with
  | X : string_loop _ _ _ = Ret _ |- _ =>
      rewrite <- EQ in X;
      apply string_loop_spec in X as (new & T & _); trivial
  end.
  rewrite M, T, <- !app_assoc. eauto.
Qed.

(** ** The scanner on malformed input *)

(** A string region that is never closed makes the outer loop panic: the
    inner loop stops at the end of input, and the [i++] after it puts [i]
    beyond [n] before [s[start:i]] is taken. *)
Lemma unclosed_string_panics (s : gostring) (st : ScanState) :
  nth_error s (pos st) = Some dquote ->
  (forall k, pos st < k -> nth_error s k <> Some dquote) ->
  exists p, step s dquote st = Panics p.
Proof.
  intros E N. rewrite step_dquote. unfold scan_string.
  set (q0 := mkStr (pos st) (pos st + 1) (result st)).
  destruct (string_loop (length s - cur q0) s q0) as [q|p] eqn:H; simpl;
    [|eauto].
  pose proof (string_loop_exit _ _ _ _ (Nat.le_refl _) H) as X.
  assert (C : cur q0 <= cur q).
  { apply string_loop_spec in H; simpl; try lia.
    - destruct H as (new & _ & _ & _ & C & _). exact C.
    - apply nth_error_lt in E. lia. }
  simpl in C.
  destruct X as [X | X]; [|exfalso; apply (N (cur q)); [lia | exact X]].
  apply nth_error_None in X.
  rewrite slice_beyond by lia. simpl. eauto.
Qed.

Lemma scan_unclosed_string_panics (s : gostring) (st : ScanState) :
  reachable s st ->
  nth_error s (pos st) = Some dquote ->
  (forall k, pos st < k -> nth_error s k <> Some dquote) ->
  exists p, scan s = Panics p.
Proof.
  intros R E N. destruct (unclosed_string_panics s st E N) as (p & H).
  exists p. now apply scan_panics_from with (st := st) (c := dquote).
Qed.

(** Claim C1.  On the spec's Example 4, an object whose last string is
    not terminated, [scan] does not return the tokens recognized so far: it
    panics with a slice bound out of range. *)
Theorem scan_unterminated_string_panics :
  scan unterminated_input = Panics SliceBoundsOutOfRange.
Proof. reflexivity. Qed.

(** A word that starts with [t] or [n], has exactly four bytes left in the
    input and is neither [true] nor [null] makes the outer loop panic: the
    [fallthrough] enters the comparison with [false] without its guard
    [i+4 < n], and [s[i:i+5]] is out of range. *)
Lemma short_word_panics (s : gostring) (c : ascii) (st : ScanState) :
  nth_error s (pos st) = Some c ->
  c = "t"%char \/ c = "n"%char ->
  pos st + 4 = length s ->
  sub s (pos st) (pos st + 4) <> lit "true" ->
  sub s (pos st) (pos st + 4) <> lit "null" ->
  step s c st = Panics SliceBoundsOutOfRange.
Proof.
  intros E C L T N.
  assert (W : step s c st = scan_word s c st) by (destruct C; now subst c).
  rewrite W. unfold scan_word.
  assert (G : (pos st + 3 <? length s) && ((c == "t") || (c == "n")) = true).
  { apply andb_true_iff. split; [apply Nat.ltb_lt; lia|].
    destruct C; now subst c. }
  rewrite G. unfold true_null_clause.
  rewrite slice_ok by lia. cbn [bind].
  destruct (gostring_eqb (sub s (pos st) (pos st + 4)) (lit "true")) eqn:Q1;
    [apply gostring_eqb_eq in Q1; contradiction|].
  destruct (gostring_eqb (sub s (pos st) (pos st + 4)) (lit "null")) eqn:Q2;
    [apply gostring_eqb_eq in Q2; contradiction|].
  unfold false_clause. now rewrite slice_beyond by lia.
Qed.

Lemma scan_truncated_word_panics (s : gostring) (c : ascii) (st : ScanState) :
  reachable s st ->
  nth_error s (pos st) = Some c ->
  c = "t"%char \/ c = "n"%char ->
  pos st + 4 = length s ->
  sub s (pos st) (pos st + 4) <> lit "true" ->
  sub s (pos st) (pos st + 4) <> lit "null" ->
  scan s = Panics SliceBoundsOutOfRange.
Proof.
  intros R E C L T N.
  apply scan_panics_from with (st := st) (c := c); trivial.
  now apply short_word_panics.
Qed.

Lemma letter_clause_returns (s : gostring) (st : ScanState) :
  pos st <= length s -> exists st', letter_clause s st = Ret st'.
Proof.
  intros L. unfold letter_clause, letter_loop.
  destruct (run_loop_bounds IsLetter s (length s - pos st) (pos st) L).
  rewrite slice_ok by trivial. simpl. eauto.
Qed.

Lemma false_clause_returns (s : gostring) (st : ScanState) :
  pos st + 5 <= length s -> exists st', false_clause s st = Ret st'.
Proof.
  intros L. unfold false_clause. rewrite slice_ok by lia. cbn [bind].
  destruct (gostring_eqb (sub s (pos st) (pos st + 5)) (lit "false")).
  - simpl. eauto.
  - apply letter_clause_returns. lia.
Qed.

(** That is the only way in which a word makes [scan] panic: every other
    run of letters, however close to the end of input, gives a token. *)
Lemma scan_word_returns (s : gostring) (c : ascii) (st : ScanState) :
  nth_error s (pos st) = Some c ->
  ~ ((c = "t"%char \/ c = "n"%char) /\ pos st + 4 = length s /\
     sub s (pos st) (pos st + 4) <> lit "true" /\
     sub s (pos st) (pos st + 4) <> lit "null") ->
  exists st', scan_word s c st = Ret st'.
Proof.
  intros E X. pose proof (nth_error_lt _ _ _ E) as L. unfold scan_word.
  destruct ((pos st + 3 <? length s) && ((c == "t") || (c == "n"))) eqn:G.
  - apply andb_true_iff in G as [G1 G2]. apply Nat.ltb_lt in G1.
    assert (C : c = "t"%char \/ c = "n"%char).
    { apply orb_true_iff in G2 as [G2 | G2]; apply Ascii.eqb_eq in G2; auto. }
    unfold true_null_clause. rewrite slice_ok by lia. cbn [bind].
    destruct (gostring_eqb (sub s (pos st) (pos st + 4)) (lit "true")) eqn:Q1.
    { simpl. eauto. }
    cbn [bind].
    destruct (gostring_eqb (sub s (pos st) (pos st + 4)) (lit "null")) eqn:Q2.
    { simpl. eauto. }
    apply false_clause_returns.
    destruct (Nat.eq_dec (pos st + 4) (length s)) as [D | D]; [|lia].
    exfalso. apply X. repeat split; trivial; intros Y;
      apply gostring_eqb_eq in Y; congruence.
  - destruct ((pos st + 4 <? length s) && (c == "f")) eqn:G'.
    + apply andb_true_iff in G' as [G1 _]. apply Nat.ltb_lt in G1.
      apply false_clause_returns. lia.
    + apply letter_clause_returns. lia.
Qed.

(** Claim C2.  On the four letters [nope], a run of letters too short
    to be compared with [false], [scan] does not return one LETTER token:
    it panics with a slice bound out of range. *)
Theorem scan_short_word_panics :
  scan (lit "nope") = Panics SliceBoundsOutOfRange.
Proof. reflexivity. Qed.

(** ** String regions *)

(** Claim C3 as the spec states it fails: the only token of the literal [quoted_a] is a
    STRING whose lexeme holds both quote characters. *)
Lemma string_lexeme_holds_quotes :
  exists t,
    scan quoted_a = Ret [t] /\ kind t = STRING /\
    lexeme t = quoted_a /\ In dquote (lexeme t).
Proof.
  exists (mkToken STRING quoted_a).
  repeat split. simpl. now left.
Qed.

(** Claim C3, as the code has it.  When the outer loop is at a double
    quote and the string region is scanned to its end, the loop goes on
    after the closing quote, which is another byte than the opening one,
    and the tokens appended are STRING and ESCAPE tokens whose lexemes,
    concatenated, are the bytes of the region from the opening quote to the
    closing quote included: the first token is a STRING whose lexeme begins
    with the opening quote, and the last a STRING whose lexeme ends with
    the closing quote.  These tokens stand at that place in what [scan]
    returns. *)
Theorem string_region_keeps_quotes (s : gostring) (st st' : ScanState) :
  reachable s st ->
  nth_error s (pos st) = Some dquote ->
  step s dquote st = Ret st' ->
  exists new,
    result st' = result st ++ new /\
    insideArray st' = insideArray st /\
    pos st + 2 <= pos st' /\ pos st' <= length s /\
    Forall string_kind new /\
    lexemes new = sub s (pos st) (pos st') /\
    length (lexemes new) = pos st' - pos st /\
    nth_error s (pos st' - 1) = Some dquote /\
    (exists x rest, new = mkToken STRING (dquote :: x) :: rest) /\
    (exists front y, new = front ++ [mkToken STRING (y ++ [dquote])]) /\
    (forall l, scan s = Ret l -> exists more, l = result st ++ new ++ more).
Proof.
  intros R E H.
  assert (R' : reachable s st') by (now apply (reach_step s st st' dquote)).
  rewrite step_dquote in H.
  destruct (scan_string_spec s st st' E H)
    as (new & T & I & P1 & P2 & Lx & K & Q & F & L).
  exists new. repeat split; trivial.
  - rewrite Lx. apply sub_length; lia.
  - intros l S. destruct (reachable_prefix s st' l R' S) as (more & M).
    exists more. now rewrite M, T, app_assoc.
Qed.

Lemma string_region_keeps_quotes_witness :
  exists new,
    [mkToken STRING quoted_a] = [] ++ new /\
    false = false /\
    0 + 2 <= 3 /\ 3 <= length quoted_a /\
    Forall string_kind new /\
    lexemes new = sub quoted_a 0 3 /\
    length (lexemes new) = 3 - 0 /\
    nth_error quoted_a (3 - 1) = Some dquote /\
    (exists x rest, new = mkToken STRING (dquote :: x) :: rest) /\
    (exists front y, new = front ++ [mkToken STRING (y ++ [dquote])]) /\
    (forall l, scan quoted_a = Ret l -> exists more, l = [] ++ new ++ more).
Proof.
  apply (string_region_keeps_quotes quoted_a scan_init
           (mkScan 3 false [mkToken STRING quoted_a]));
    [apply reach_init | reflexivity | reflexivity].
Defined.

(** Claim C7.  Whenever the loop over a string region is at a
    backslash followed by [u], with at least five bytes after the
    backslash, one iteration flushes the pending STRING fragment and
    appends exactly one ESCAPE token, whose lexeme is the six bytes from
    the backslash on (backslash, [u] and the four bytes that follow,
    whatever they are); the loop goes on right after them, and the two
    tokens stand at that place in what [scan] returns. *)
Theorem unicode_escape_token (s : gostring) (q : StrState) :
  str_reachable s q ->
  nth_error s (cur q) = Some backslash ->
  nth_error s (cur q + 1) = Some "u"%char ->
  cur q + 6 <= length s ->
  let esc := mkToken ESCAPE (sub s (cur q) (cur q + 6)) in
  let q' := mkStr (cur q + 6) (cur q + 6)
              (toks q ++ [mkToken STRING (sub s (start q) (cur q)); esc]) in
  string_iter s backslash q = Ret q' /\
  string_loop (length s - cur q) s q = string_loop (length s - cur q') s q' /\
  length (lexeme esc) = 6 /\
  (exists h, lexeme esc = backslash :: "u"%char :: h /\ length h = 4) /\
  (forall l, scan s = Ret l ->
     exists more,
       l = toks q ++ [mkToken STRING (sub s (start q) (cur q)); esc] ++ more).
Proof.
  intros Q B U N esc q'.
  destruct (str_reachable_inv s q Q) as (L & _).
  assert (I : string_iter s backslash q = Ret q').
  { unfold string_iter. simpl.
    rewrite slice_ok by lia. simpl.
    unfold index. rewrite U. simpl.
    replace (cur q + 1 + 5) with (cur q + 6) by lia.
    rewrite slice_ok by lia. simpl.
    unfold q', esc. now rewrite <- app_assoc. }
  split; [exact I|]. split; [|split; [|split]].
  - rewrite string_loop_eq, B. simpl. now rewrite I.
  - simpl. rewrite sub_length; lia.
  - exists (sub s (cur q + 2) (cur q + 6)). simpl. split.
    + rewrite (sub_cons s (cur q) (cur q + 6) backslash) by (trivial; lia).
      rewrite (sub_cons s (cur q + 1) (cur q + 6) "u"%char) by (trivial; lia).
      now replace (cur q + 1 + 1) with (cur q + 2) by lia.
    + rewrite sub_length; lia.
  - intros l H.
    assert (Q' : str_reachable s q').
    { apply (str_reach_iter s q q' backslash); trivial. discriminate. }
    destruct (str_reachable_prefix s q' l Q' H) as (more & M).
    exists more. rewrite M. unfold q'. simpl. now rewrite <- app_assoc.
Qed.

Lemma unicode_escape_token_witness :
  let q := mkStr 0 2 [] in
  let esc := mkToken ESCAPE (lit "\u00e9") in
  let q' := mkStr 8 8 [mkToken STRING ([dquote] ++ lit "a"); esc] in
  string_iter unicode_literal backslash q = Ret q' /\
  string_loop (length unicode_literal - 2) unicode_literal q =
  string_loop (length unicode_literal - 8) unicode_literal q' /\
  length (lexeme esc) = 6 /\
  (exists h, lexeme esc = backslash :: "u"%char :: h /\ length h = 4) /\
  (forall l, scan unicode_literal = Ret l ->
     exists more,
       l = [] ++ [mkToken STRING ([dquote] ++ lit "a"); esc] ++ more).
Proof.
  apply (unicode_escape_token unicode_literal (mkStr 0 2 []));
    [|reflexivity|reflexivity|simpl; lia].
  apply (str_reach_iter unicode_literal (mkStr 0 1 []) _ "a"%char);
    [|reflexivity|discriminate|reflexivity].
  apply (str_reach_open unicode_literal scan_init);
    [apply reach_init | reflexivity].
Defined.

(** ** Structural characters *)

(** Claim C5.  Whenever the outer loop of [scan] is at a structural
    character, it appends exactly one token, of the corresponding kind and
    with that character as lexeme, and moves on by one byte; the token
    stands at that place in what [scan] returns.  A comma is an ARRAY_COMMA
    when the toggle is true and an OBJECT_COMMA when it is false; the
    toggle flips at a bracket and is kept otherwise, and at every state of
    the loop it is the parity of the bracket tokens made so far, false at
    the start. *)
Theorem structural_character_token (s : gostring) (st : ScanState) (c : ascii) :
  reachable s st ->
  nth_error s (pos st) = Some c ->
  structural c = true ->
  let t := mkToken (structural_kind (insideArray st) c) [c] in
  insideArray st = Nat.odd (brackets (result st)) /\
  step s c st =
  Ret (mkScan (pos st + 1)
         (xorb (insideArray st) (is_bracket c))
         (result st ++ [t])) /\
  (forall l, scan s = Ret l -> exists more, l = result st ++ [t] ++ more).
Proof.
  intros R E S t.
  assert (H : step s c st =
              Ret (mkScan (pos st + 1)
                     (xorb (insideArray st) (is_bracket c))
                     (result st ++ [t]))).
  { unfold t. unfold structural in S.
    repeat (apply orb_true_iff in S; destruct S as [S | S]);
      apply Ascii.eqb_eq in S; subst c; unfold step, emit; simpl;
      rewrite ?xorb_false_r, ?xorb_true_r; trivial.
    destruct (insideArray st); reflexivity. }
  split; [now apply reachable_toggle with (s := s)|]. split; [exact H|].
  intros l L.
  pose proof (reach_step s st _ c R E H) as R'.
  destruct (reachable_prefix s _ l R' L) as (more & M).
  exists more. rewrite M. simpl. now rewrite <- app_assoc.
Qed.

Lemma structural_character_token_witness :
  let s := lit "[1,2]" in
  let st := mkScan 2 true [mkToken LEFT_BRACKET (lit "[");
                           mkToken NUMBER (lit "1")] in
  let t := mkToken ARRAY_COMMA (lit ",") in
  insideArray st = Nat.odd (brackets (result st)) /\
  step s ","%char st = Ret (mkScan 3 true (result st ++ [t])) /\
  (forall l, scan s = Ret l -> exists more, l = result st ++ [t] ++ more).
Proof.
  apply (structural_character_token (lit "[1,2]")
           (mkScan 2 true [mkToken LEFT_BRACKET (lit "[");
                           mkToken NUMBER (lit "1")]) ","%char);
    [|reflexivity|reflexivity].
  apply (reach_step _ (mkScan 1 true [mkToken LEFT_BRACKET (lit "[")]) _
           "1"%char); [|reflexivity|reflexivity].
  apply (reach_step _ scan_init _ "["%char); [|reflexivity|reflexivity].
  apply reach_init.
Defined.

(** A step at any other character keeps the toggle. *)
Lemma toggle_kept (s : gostring) (st st' : ScanState) (c : ascii) :
  nth_error s (pos st) = Some c ->
  is_bracket c = false ->
  step s c st = Ret st' ->
  insideArray st' = insideArray st.
Proof.
  intros E B H.
  destruct (step_spec s c st st' E H) as (ps & _ & _ & _ & _ & I & _).
  now rewrite I, B, xorb_false_r.
Qed.

(** ** Lexemes and the input *)

Lemma lexeme_pieces_length (ps : list Piece) :
  Forall lexeme_piece ps ->
  length (lexemes (tokens_of ps)) <= length (source_of ps).
Proof.
  unfold lexemes, tokens_of, source_of.
  induction 1 as [|p ps P _ IH]; simpl; trivial.
  rewrite map_app, concat_app, !length_app.
  destruct p as [t|c|]; simpl in *; try contradiction; rewrite ?app_nil_r; lia.
Qed.

(** Claim C4.  On the UTF-8 text of the copyright sign, the bytes 0xC2
    0xA9, [scan] returns a LETTER token for the byte 0xC2 and an UNKNOWN
    token for the byte 0xA9 whose lexeme, [string(0xA9)], is the two bytes
    0xC2 0xA9 and not the byte of the source: the lexemes concatenated are
    three bytes for an input of two, and no interleaving of lexemes and
    plain spaces gives back the input. *)
Theorem unknown_byte_breaks_reconstruction :
  exists toks,
    scan copyright_sign = Ret toks /\
    toks = [mkToken LETTER [ascii_of_nat 194];
            mkToken UNKNOWN [ascii_of_nat 194; ascii_of_nat 169]] /\
    lexemes toks = [ascii_of_nat 194; ascii_of_nat 194; ascii_of_nat 169] /\
    ~ reconstructs copyright_sign toks.
Proof.
  eexists. split; [reflexivity|]. split; [reflexivity|].
  split; [reflexivity|].
  intros (ps & F & T & S).
  apply lexeme_pieces_length in F. rewrite T, S in F.
  simpl in F. lia.
Qed.

Lemma faithful_lexemes (ps : list Piece) :
  Forall faithful_piece ps -> lexemes (tokens_of ps) = unspaced ps.
Proof.
  unfold lexemes, tokens_of, unspaced.
  induction 1 as [|p ps P _ IH]; simpl; trivial.
  rewrite map_app, concat_app, IH. f_equal.
  destruct p as [t|c|]; simpl in *; rewrite ?app_nil_r; trivial.
  unfold string_of_byte. apply Nat.ltb_lt in P. now rewrite P.
Qed.

Lemma faithful_reconstructs (ps : list Piece) :
  Forall faithful_piece ps -> reconstructs (source_of ps) (tokens_of ps).
Proof.
  intros A. exists (map lexeme_of_piece ps).
  unfold tokens_of, source_of.
  induction A as [|p ps P _ (F & T & S)]; simpl;
    [repeat split; constructor|].
  split; [|split].
  - constructor; trivial. now destruct p.
  - rewrite T. now destruct p.
  - rewrite S. f_equal. destruct p as [t|c|]; simpl in *; trivial.
    unfold string_of_byte. apply Nat.ltb_lt in P. now rewrite P.
Qed.

Lemma ascii_faithful (ps : list Piece) :
  ascii_only (source_of ps) -> Forall faithful_piece ps.
Proof.
  unfold ascii_only, source_of.
  induction ps as [|p ps IH]; simpl; intros A; [constructor|].
  apply Forall_app in A as [A1 A2]. constructor; [|now apply IH].
  destruct p as [t|c|]; simpl; trivial.
  now inversion A1.
Qed.

Lemma ascii_lexemes (ps : list Piece) :
  ascii_only (source_of ps) -> lexemes (tokens_of ps) = unspaced ps.
Proof.
  intros A. now apply faithful_lexemes, ascii_faithful.
Qed.

Lemma ascii_reconstructs (ps : list Piece) :
  ascii_only (source_of ps) -> reconstructs (source_of ps) (tokens_of ps).
Proof.
  intros A. now apply faithful_reconstructs, ascii_faithful.
Qed.

(** Property X22.  When [scan] returns, the input is cut, in order, into
    the skipped plain spaces and the source bytes of the tokens returned:
    the lexeme of a token, or the one byte that an UNKNOWN token was made
    from.  When every such byte is below 0x80, as in an ASCII input, the
    lexemes and the skipped spaces reconstruct the input, and the lexemes
    concatenated in order are the input without the skipped spaces. *)
Theorem scan_cuts_input (s : gostring) (toks : list Token) :
  scan s = Ret toks ->
  exists ps,
    tokens_of ps = toks /\
    source_of ps = s /\
    (Forall faithful_piece ps ->
     reconstructs s toks /\ lexemes toks = unspaced ps) /\
    (ascii_only s -> Forall faithful_piece ps).
Proof.
  intros H. unfold scan in H. inv_go H. injection H as <-.
  rename a into st.
  pose proof (scan_loop_reachable _ _ _ _ (reach_init s) Ha) as R.
  apply scan_loop_end in Ha; [|simpl; lia].
  destruct (reachable_pieces s st R) as (B & ps & T & S).
  assert (P : pos st = length s) by lia.
  rewrite P, sub_full in S.
  exists ps. repeat split; trivial.
  - rewrite <- T, <- S. now apply faithful_reconstructs.
  - rewrite <- T. now apply faithful_lexemes.
  - intros A. apply ascii_faithful. now rewrite S.
Qed.

Lemma scan_cuts_input_witness :
  let toks := [mkToken LEFT_BRACKET (lit "["); mkToken NUMBER (lit "1");
               mkToken ARRAY_COMMA (lit ","); mkToken NUMBER (lit "2");
               mkToken RIGHT_BRACKET (lit "]")] in
  exists ps,
    tokens_of ps = toks /\
    source_of ps = lit "[1, 2]" /\
    (Forall faithful_piece ps ->
     reconstructs (lit "[1, 2]") toks /\ lexemes toks = unspaced ps) /\
    (ascii_only (lit "[1, 2]") -> Forall faithful_piece ps).
Proof.
  apply (scan_cuts_input (lit "[1, 2]")). reflexivity.
Defined.

(** ** Layout *)

Lemma printSpanTags_span (k : Kind) (lx out : gostring) :
  printSpanTags (kindColor k) lx out = out ++ span k lx.
Proof. reflexivity. Qed.

Lemma printIndent_loop_repeat (num : Z) (fuel : nat) (i : Z) (out : gostring) :
  Z.to_nat (num - i) = fuel ->
  printIndent_loop fuel i num out = out ++ concat (repeat (lit "  ") fuel).
Proof.
  revert i out. induction fuel as [|f IH]; intros i out F; simpl.
  - now rewrite app_nil_r.
  - assert (L : (i <? num)%Z = true) by (apply Z.ltb_lt; lia).
    rewrite L, IH by lia. unfold Printf. now rewrite <- app_assoc.
Qed.

(** [printIndent] writes two spaces [num] times, and nothing when [num] is
    negative. *)
Lemma printIndent_repeat (num : Z) (out : gostring) :
  printIndent num out = out ++ concat (repeat (lit "  ") (Z.to_nat num)).
Proof.
  unfold printIndent. apply printIndent_loop_repeat. f_equal. lia.
Qed.

Lemma printIndent_nonpositive (num : Z) (out : gostring) :
  (num <= 0)%Z -> printIndent num out = out.
Proof.
  intros H. rewrite printIndent_repeat.
  replace (Z.to_nat num) with 0 by lia. apply app_nil_r.
Qed.

Lemma render_tokens_app (l m : list Token) (r : RenderState) :
  render_tokens (l ++ m) r = render_tokens m (render_tokens l r).
Proof. apply fold_left_app. Qed.

Lemma count_kind_cons (k : Kind) (t : Token) (l : list Token) :
  count_kind k (t :: l) =
  (if Kind_eqb (kind t) k then 1 else 0) + count_kind k l.
Proof.
  unfold count_kind. simpl. now destruct (Kind_eqb (kind t) k).
Qed.

Lemma render_token_braceCount (r : RenderState) (t : Token) :
  braceCount (render_token r t) =
  (braceCount r
   + (if Kind_eqb (kind t) LEFT_BRACE then 1 else 0)
   - (if Kind_eqb (kind t) RIGHT_BRACE then 1 else 0))%Z.
Proof.
  unfold render_token. destruct (kind t); simpl; lia.
Qed.

(** [braceCount] is the number of LEFT_BRACE tokens seen minus the number
    of RIGHT_BRACE tokens seen. *)
Lemma render_tokens_braceCount (l : list Token) (r : RenderState) :
  braceCount (render_tokens l r) =
  (braceCount r + Z.of_nat (count_kind LEFT_BRACE l)
   - Z.of_nat (count_kind RIGHT_BRACE l))%Z.
Proof.
  revert r. induction l as [|t l IH]; intros r; simpl; [lia|].
  unfold render_tokens in IH. rewrite IH, render_token_braceCount.
  rewrite !count_kind_cons.
  destruct (Kind_eqb (kind t) LEFT_BRACE), (Kind_eqb (kind t) RIGHT_BRACE);
    lia.
Qed.

(** Claim C8.  At a RIGHT_BRACE that no LEFT_BRACE before it matches,
    the renderer brings [braceCount] below zero; [printIndent] then writes
    nothing, so that the token is rendered as a newline, its span and a
    newline, and the renderer goes on with the rest of the tokens. *)
Theorem unmatched_right_brace (pre post : list Token) (t : Token) :
  kind t = RIGHT_BRACE ->
  count_kind LEFT_BRACE pre <= count_kind RIGHT_BRACE pre ->
  let r := render_tokens pre render_init in
  let r' := render_token r t in
  (braceCount r' = braceCount r - 1)%Z /\
  (braceCount r' < 0)%Z /\
  (forall out, printIndent (braceCount r') out = out) /\
  stdout r' = stdout r ++ [newline] ++ span RIGHT_BRACE (lexeme t) ++ [newline] /\
  colorizedPrint (pre ++ t :: post) =
  stdout (render_tokens post r') ++ span_close.
Proof.
  intros K C r r'.
  assert (D : (braceCount r <= 0)%Z).
  { unfold r. rewrite render_tokens_braceCount. simpl. lia. }
  assert (E : (braceCount r' = braceCount r - 1)%Z).
  { unfold r'. rewrite render_token_braceCount, K. simpl. lia. }
  split; [exact E|]. split; [lia|]. split; [|split].
  - intros out. apply printIndent_nonpositive. lia.
  - assert (E' : (braceCount r - 1 <= 0)%Z) by lia.
    unfold r', render_token. rewrite K. cbv beta iota zeta. cbn [stdout].
    rewrite !(printIndent_nonpositive _ _ E').
    unfold Printf. rewrite printSpanTags_span, <- !app_assoc. reflexivity.
  - unfold colorizedPrint. rewrite render_tokens_app. reflexivity.
Qed.

Lemma unmatched_right_brace_witness :
  let t := mkToken RIGHT_BRACE (lit "}") in
  let r := render_init in
  let r' := render_token r t in
  (braceCount r' = braceCount r - 1)%Z /\
  (braceCount r' < 0)%Z /\
  (forall out, printIndent (braceCount r') out = out) /\
  stdout r' = stdout r ++ [newline] ++ span RIGHT_BRACE (lexeme t) ++ [newline] /\
  colorizedPrint ([] ++ t :: []) = stdout (render_tokens [] r') ++ span_close.
Proof.
  apply (unmatched_right_brace [] [] (mkToken RIGHT_BRACE (lit "}")));
    [reflexivity | exact (le_n 0)].
Defined.

(** Claim C9.  [scan] cuts [[1,2,3]] into a LEFT_BRACKET, three
    NUMBER tokens separated by ARRAY_COMMA tokens and a RIGHT_BRACKET; the
    renderer writes them on one line, each in a span of its colour, a
    single space after each comma and no newline anywhere: what shows is
    [[1, 2, 3]].  In every state an ARRAY_COMMA is rendered as its span
    followed by one space, with [braceCount] kept. *)
Theorem array_on_one_line :
  scan (lit "[1,2,3]") =
  Ret [mkToken LEFT_BRACKET (lit "["); mkToken NUMBER (lit "1");
       mkToken ARRAY_COMMA (lit ","); mkToken NUMBER (lit "2");
       mkToken ARRAY_COMMA (lit ","); mkToken NUMBER (lit "3");
       mkToken RIGHT_BRACKET (lit "]")] /\
  (exists out,
     pipeline (lit "[1,2,3]") = Ret out /\
     out = container_open
           ++ html_span (lit "rgb(232, 71, 162)") (lit "[")
           ++ html_span (lit "rgb(76, 135, 255)") (lit "1")
           ++ html_span (lit "rgb(255, 177, 76)") (lit ",") ++ lit " "
           ++ html_span (lit "rgb(76, 135, 255)") (lit "2")
           ++ html_span (lit "rgb(255, 177, 76)") (lit ",") ++ lit " "
           ++ html_span (lit "rgb(76, 135, 255)") (lit "3")
           ++ html_span (lit "rgb(232, 71, 162)") (lit "]")
           ++ lit "</span>" /\
     strip_tags false out = lit "[1, 2, 3]" /\
     ~ In newline out) /\
  (forall r lx,
     render_token r (mkToken ARRAY_COMMA lx) =
     mkRender (stdout r ++ html_span (lit "rgb(255, 177, 76)") lx ++ lit " ")
              (braceCount r)).
Proof.
  split; [reflexivity|]. split.
  - eexists. split; [reflexivity|]. split; [reflexivity|].
    split; [reflexivity|].
    intros H. vm_compute in H.
    repeat (destruct H as [H | H]; [discriminate H|]). exact H.
  - intros r lx. unfold render_token. cbn [kind lexeme].
    unfold Printf. now rewrite printSpanTags_span, <- app_assoc.
Qed.

(** Claim C10.  On the empty input [scan] returns no token, and the
    rendering of no token is the opening tag of the container span
    immediately followed by its closing tag. *)
Theorem empty_input :
  scan [] = Ret [] /\
  colorizedPrint [] = span_open ++ span_close /\
  pipeline [] = Ret (span_open ++ span_close) /\
  span_open =
  lit "<span style=" ++ [dquote]
      ++ lit "font-family:monospace; white-space:pre" ++ [dquote] ++ lit ">" /\
  span_close = lit "</span>".
Proof. repeat split. Qed.

(** ** HTML escaping *)

Lemma print_string_spans (lx out : gostring) :
  print_string lx out = out ++ flat_map (span STRING) (map string_char lx).
Proof.
  unfold print_string. revert out.
  induction lx as [|c lx IH]; intros out; cbn [fold_left map flat_map].
  - now rewrite app_nil_r.
  - now rewrite IH, printSpanTags_span, <- app_assoc.
Qed.

Lemma string_char_cases (c : ascii) :
  string_char c = if special c then named_entity c else string_of_byte c.
Proof.
  unfold string_char, special, named_entity.
  destruct (c == "<"); trivial. destruct (c == ">"); trivial.
  destruct (c == "&"); trivial. destruct (c == dquote); trivial.
Qed.

Lemma string_char_escaped (c : ascii) : entity_or_plain (string_char c) = true.
Proof.
  destruct c as [[] [] [] [] [] [] [] []]; reflexivity.
Qed.

(** Claim C6 as the spec states it fails: in the literal
    [escaped_quote_literal] the quote after the backslash is string
    content, it goes into an ESCAPE token, and the renderer writes that
    token's lexeme as it is: the output holds the raw quote at that
    position, not [&quot;]. *)
Lemma escaped_quote_rendered_raw :
  scan escaped_quote_literal =
  Ret [mkToken STRING [dquote]; mkToken ESCAPE [backslash; dquote];
       mkToken STRING [dquote]] /\
  pipeline escaped_quote_literal =
  Ret (container_open
       ++ html_span (lit "rgb(232, 6, 6)") (lit "&quot;")
       ++ html_span (lit "rgb(71, 155, 85)") [backslash; dquote]
       ++ html_span (lit "rgb(232, 6, 6)") (lit "&quot;")
       ++ lit "</span>") /\
  ~ string_content_escaped escaped_quote_literal.
Proof.
  split; [reflexivity|]. split; [reflexivity|].
  intros H.
  specialize (H _ (mkToken ESCAPE [backslash; dquote]) eq_refl).
  discriminate H; [simpl; auto | now right].
Qed.

(** Claim C6, as the code has it.  For a STRING token the renderer writes
    one span per byte of the lexeme, in order and in the colour of strings;
    the span of a byte among [<], [>], [&], the double quote and ['] holds
    its named entity, the span of any other byte [c] holds [string(c)], and
    no span holds a raw special character.  For an ESCAPE token it writes
    one span, in the colour of escapes, that holds the lexeme as it is. *)
Theorem string_token_escaped (r : RenderState) (lx : gostring) :
  let escaped :=
    map (fun c => if special c then named_entity c else string_of_byte c) lx in
  span_texts (mkToken STRING lx) = escaped /\
  render_token r (mkToken STRING lx) =
  mkRender (stdout r ++ flat_map (html_span (lit "rgb(232, 6, 6)")) escaped)
           (braceCount r) /\
  forallb entity_or_plain escaped = true /\
  span_texts (mkToken ESCAPE lx) = [lx] /\
  render_token r (mkToken ESCAPE lx) =
  mkRender (stdout r ++ html_span (lit "rgb(71, 155, 85)") lx) (braceCount r).
Proof.
  intros escaped.
  assert (E : map string_char lx = escaped)
    by (apply map_ext; intros c; apply string_char_cases).
  split; [exact E|]. split; [|split; [|split]].
  - unfold render_token. cbn [kind lexeme].
    rewrite print_string_spans, E. reflexivity.
  - rewrite <- E. apply forallb_forall. intros x X.
    apply in_map_iff in X as (c & <- & _). apply string_char_escaped.
  - reflexivity.
  - reflexivity.
Qed.

Lemma string_token_escaped_witness :
  render_token render_init (mkToken STRING (lit "a<b")) =
  mkRender (container_open
            ++ html_span (lit "rgb(232, 6, 6)") (lit "a")
            ++ html_span (lit "rgb(232, 6, 6)") (lit "&lt;")
            ++ html_span (lit "rgb(232, 6, 6)") (lit "b")) 0%Z /\
  render_token render_init (mkToken ESCAPE (lit "\<")) =
  mkRender (container_open ++ html_span (lit "rgb(71, 155, 85)") (lit "\<"))
           0%Z.
Proof.
  split.
  - apply (proj1 (proj2 (string_token_escaped render_init (lit "a<b")))).
  - apply (proj2 (proj2 (proj2 (proj2
             (string_token_escaped render_init (lit "\<")))))).
Defined.

(** * Further properties *)

(** ** Runs of letters and of number characters *)

Lemma run_loop_all (p : ascii -> bool) (s : gostring) (fuel i : nat) :
  i <= length s -> forallb p (sub s i (run_loop p fuel s i)) = true.
Proof.
  revert i. induction fuel as [|f IH]; intros i L; simpl.
  - now rewrite sub_empty.
  - destruct (nth_error s i) as [c|] eqn:E; [|now rewrite sub_empty].
    destruct (p c) eqn:P; [|now rewrite sub_empty].
    pose proof (nth_error_lt _ _ _ E) as B.
    destruct (run_loop_bounds p s f (i + 1)) as [B1 B2]; [lia|].
    rewrite (sub_cons s i _ c E) by lia. simpl.
    rewrite P. apply IH. lia.
Qed.

Lemma run_loop_stop (p : ascii -> bool) (s : gostring) (fuel i : nat) (c : ascii) :
  length s - i <= fuel ->
  nth_error s (run_loop p fuel s i) = Some c -> p c = false.
Proof.
  revert i. induction fuel as [|f IH]; intros i F; simpl.
  - intros E. apply nth_error_lt in E. lia.
  - destruct (nth_error s i) as [a|] eqn:E.
    + destruct (p a) eqn:P.
      * apply IH. lia.
      * intros E'. congruence.
    + intros E'. congruence.
Qed.

Lemma step_number (s : gostring) (c : ascii) (st : ScanState) :
  (c == "-") || IsDigit c = true -> step s c st = scan_number s st.
Proof.
  intros H.
  destruct c as [[] [] [] [] [] [] [] []]; try discriminate H; reflexivity.
Qed.


Lemma number_run (s : gostring) (c : ascii) (st : ScanState) :
  nth_error s (pos st) = Some c ->
  (c == "-") || IsDigit c = true ->
  exists j,
    step s c st = Ret (emit st NUMBER (sub s (pos st) j) j) /\
    pos st < j /\ j <= length s /\
    forallb isValidNumberCode (sub s (pos st) j) = true /\
    (forall d, nth_error s j = Some d -> isValidNumberCode d = false).
Proof.
  intros E H. rewrite (step_number s c st H).
  assert (V : isValidNumberCode c = true).
  { unfold isValidNumberCode. apply orb_true_iff in H as [H | H]; rewrite H.
    - now rewrite !orb_true_r.
    - reflexivity. }
  destruct (run_loop_first isValidNumberCode s (pos st) c E V) as [L1 L2].
  exists (number_loop s (pos st)). unfold scan_number, number_loop in *.
  rewrite slice_ok by lia. simpl.
  repeat split; trivial.
  - apply run_loop_all. lia.
  - intros d. apply run_loop_stop. lia.
Qed.



(** ** The shape of the lexemes *)

Lemma number_shape_run (s : gostring) (c : ascii) (i j : nat) :
  nth_error s i = Some c -> (c == "-") || IsDigit c = true -> i < j ->
  forallb isValidNumberCode (sub s i j) = true ->
  number_shape (sub s i j) = true.
Proof.
  intros E H L F. rewrite (sub_cons s i j c E L) in *.
  unfold number_shape. now rewrite H, F.
Qed.

Lemma letter_shape_run (s : gostring) (c : ascii) (i j : nat) :
  nth_error s i = Some c -> i < j ->
  forallb IsLetter (sub s i j) = true ->
  letter_shape (sub s i j) = true.
Proof.
  intros E L F. rewrite (sub_cons s i j c E L) in *. exact F.
Qed.

Lemma letter_clause_wf (s : gostring) (c : ascii) (st st' : ScanState) :
  nth_error s (pos st) = Some c -> IsLetter c = true ->
  letter_clause s st = Ret st' ->
  exists t, result st' = result st ++ [t] /\ kind t = LETTER /\ wf_token t.
Proof.
  intros E P H. unfold letter_clause in H. inv_go H. inv_slices.
  injection H as <-.
  destruct (run_loop_first IsLetter s (pos st) c E P) as [L1 L2].
  fold (letter_loop s (pos st)) in L1.
  exists (mkToken LETTER (sub s (pos st) (letter_loop s (pos st)))).
  repeat split. unfold wf_token. simpl.
  apply letter_shape_run with (c := c); trivial.
  apply run_loop_all. lia.
Qed.

Lemma false_clause_wf (s : gostring) (c : ascii) (st st' : ScanState) :
  nth_error s (pos st) = Some c -> IsLetter c = true ->
  false_clause s st = Ret st' ->
  exists t, result st' = result st ++ [t] /\
            (kind t = FALSE \/ kind t = LETTER) /\ wf_token t.
Proof.
  intros E P H. unfold false_clause in H. inv_go H.
  destruct (gostring_eqb a (lit "false")) eqn:Q.
  - apply gostring_eqb_eq in Q. inv_go H. inv_slices. injection H as <-.
    exists (mkToken FALSE (sub s (pos st) (pos st + 5))).
    repeat split; [now left|]. unfold wf_token. simpl. now rewrite Q.
  - destruct (letter_clause_wf s c st st' E P H) as (t & R & K & W).
    exists t. auto.
Qed.

Lemma scan_word_wf (s : gostring) (c : ascii) (st st' : ScanState) :
  nth_error s (pos st) = Some c -> IsLetter c = true ->
  scan_word s c st = Ret st' ->
  exists t, result st' = result st ++ [t] /\
            (kind t = TRUE \/ kind t = NULL \/ kind t = FALSE \/ kind t = LETTER) /\
            wf_token t.
Proof.
  intros E P H. unfold scan_word in H.
  destruct ((pos st + 3 <? length s) && ((c == "t") || (c == "n"))).
  - unfold true_null_clause in H. inv_go H.
    destruct (gostring_eqb a (lit "true")) eqn:Q1.
    { apply gostring_eqb_eq in Q1. inv_go H. inv_slices. injection H as <-.
      exists (mkToken TRUE (sub s (pos st) (pos st + 4))).
      repeat split; [now left|]. unfold wf_token. simpl. now rewrite Q1. }
    inv_go H.
    destruct (gostring_eqb a0 (lit "null")) eqn:Q2.
    { apply gostring_eqb_eq in Q2. inv_go H. inv_slices. injection H as <-.
      exists (mkToken NULL (sub s (pos st) (pos st + 4))).
      repeat split; [now right; left|]. unfold wf_token. simpl. now rewrite Q2. }
    destruct (false_clause_wf s c st st' E P H) as (t & R & K & W).
    exists t. repeat split; trivial. tauto.
  - destruct ((pos st + 4 <? length s) && (c == "f")).
    + destruct (false_clause_wf s c st st' E P H) as (t & R & K & W).
      exists t. repeat split; trivial. tauto.
    + destruct (letter_clause_wf s c st st' E P H) as (t & R & K & W).
      exists t. repeat split; trivial. tauto.
Qed.

Lemma scan_number_wf (s : gostring) (c : ascii) (st st' : ScanState) :
  nth_error s (pos st) = Some c -> (c == "-") || IsDigit c = true ->
  scan_number s st = Ret st' ->
  exists t, result st' = result st ++ [t] /\ kind t = NUMBER /\ wf_token t.
Proof.
  intros E P H.
  destruct (number_run s c st E P) as (j & S & L1 & L2 & F & _).
  rewrite (step_number s c st P), H in S. injection S as ->.
  exists (mkToken NUMBER (sub s (pos st) j)).
  repeat split. unfold wf_token. simpl.
  now apply number_shape_run with (c := c).
Qed.

Lemma string_iter_escape (s : gostring) (q q' : StrState) :
  start q <= cur q ->
  string_iter s backslash q = Ret q' ->
  exists u e,
    nth_error s (cur q + 1) = Some u /\
    e = (if u == "u" then cur q + 6 else cur q + 2) /\
    e <= length s /\
    q' = mkStr e e (toks q ++ [mkToken STRING (sub s (start q) (cur q));
                                mkToken ESCAPE (sub s (cur q) e)]).
Proof.
  intros L H. unfold string_iter in H. simpl in H. inv_go H.
  match goal with
  | X : index _ _ = Ret ?u |- _ =>
      unfold index in X;
      destruct (nth_error s (cur q + 1)) as [u'|] eqn:U; [|discriminate X];
      injection X as ->
  end.
  exists a0.
  destruct (a0 == "u"); inv_go H; injection H as <-; inv_slices.
  - exists (cur q + 6). replace (cur q + 1 + 5) with (cur q + 6) in * by lia.
    rewrite <- app_assoc. repeat split; trivial.
  - exists (cur q + 2). replace (cur q + 1 + 1) with (cur q + 2) in * by lia.
    rewrite <- app_assoc. repeat split; trivial.
Qed.

Lemma escape_shape_sub (s : gostring) (i e : nat) (u : ascii) :
  nth_error s i = Some backslash ->
  nth_error s (i + 1) = Some u ->
  e = (if u == "u" then i + 6 else i + 2) ->
  e <= length s ->
  escape_shape (sub s i e) = true.
Proof.
  intros B U E L.
  assert (M : i + 2 <= e) by (destruct (u == "u"); lia).
  rewrite (sub_cons s i e backslash B) by lia.
  rewrite (sub_cons s (i + 1) e u U) by lia.
  replace (i + 1 + 1) with (i + 2) by lia.
  unfold escape_shape. simpl. rewrite sub_length by lia.
  destruct (u == "u"); subst e; apply Nat.eqb_eq; lia.
Qed.

Lemma commas_string_kind (b : bool) (l : list Token) :
  Forall string_kind l -> commas_by_parity b l = true.
Proof.
  induction 1 as [|t l K _ IH]; simpl; trivial.
  destruct K as [K | K]; now rewrite K.
Qed.

Lemma not_in_snoc (l : gostring) (c : ascii) :
  ~ In backslash l -> c <> backslash -> ~ In backslash (l ++ [c]).
Proof.
  intros N C I. apply in_app_or in I as [I | [I | []]]; auto.
Qed.

Lemma string_loop_wf (fuel : nat) (s : gostring) (q q' : StrState) :
  string_loop fuel s q = Ret q' ->
  start q <= cur q -> cur q <= length s ->
  ~ In backslash (sub s (start q) (cur q)) ->
  exists new,
    toks q' = toks q ++ new /\
    Forall wf_token new /\
    length new <= cur q' - cur q /\
    cur q <= cur q' /\ start q' <= cur q' /\ cur q' <= length s /\
    ~ In backslash (sub s (start q') (cur q')).
Proof.
  assert (Base : forall q0 : StrState,
    start q0 <= cur q0 -> cur q0 <= length s ->
    ~ In backslash (sub s (start q0) (cur q0)) ->
    exists new,
      toks q0 = toks q0 ++ new /\
      Forall wf_token new /\
      length new <= cur q0 - cur q0 /\
      cur q0 <= cur q0 /\ start q0 <= cur q0 /\ cur q0 <= length s /\
      ~ In backslash (sub s (start q0) (cur q0))).
  { intros q0 L1 L2 N. exists []. rewrite app_nil_r.
    repeat split; auto. simpl. lia. }
  revert q. induction fuel as [|f IH]; intros q; simpl.
  - intros H. injection H as <-. apply Base.
  - destruct (nth_error s (cur q)) as [c|] eqn:E.
    2:{ intros H. injection H as <-. apply Base. }
    destruct (c == dquote).
    { intros H. injection H as <-. apply Base. }
    intros H L1 L2 N. inv_go H. pose proof (nth_error_lt _ _ _ E) as B.
    destruct (c == backslash) eqn:C.
    + apply Ascii.eqb_eq in C. subst c.
      destruct (string_iter_escape s q a L1 Ha) as (u & e & U & Ee & Le & ->).
      assert (M : cur q + 2 <= e) by (destruct (u == "u"); lia).
      apply IH in H; simpl; try lia; [|now rewrite sub_empty].
      destruct H as (new & T & W & Cn & C1 & C2 & C3 & N').
      simpl in *.
      exists ([mkToken STRING (sub s (start q) (cur q));
               mkToken ESCAPE (sub s (cur q) e)] ++ new).
      rewrite T, <- app_assoc. repeat split; trivial; try lia.
      * constructor; [exact N|]. constructor; trivial.
        unfold wf_token. simpl. now apply escape_shape_sub with (u := u).
      * simpl. lia.
    + unfold string_iter in Ha. rewrite C in Ha. injection Ha as <-.
      apply Ascii.eqb_neq in C.
      apply IH in H; simpl; try lia.
      * destruct H as (new & T & W & Cn & C1 & C2 & C3 & N').
        simpl in *. exists new. repeat split; trivial; lia.
      * rewrite (sub_snoc s (start q) (cur q) c E L1).
        now apply not_in_snoc.
Qed.

Lemma scan_string_wf (s : gostring) (st st' : ScanState) :
  nth_error s (pos st) = Some dquote ->
  scan_string s st = Ret st' ->
  exists new,
    result st' = result st ++ new /\
    Forall wf_token new /\
    length new <= pos st' - pos st.
Proof.
  intros Q H. unfold scan_string in H. cbv zeta in H. cbn [cur] in H.
  inv_go H. rename a into q. pose proof (nth_error_lt _ _ _ Q) as L.
  inv_slices. injection H as <-. simpl.
  pose proof (string_loop_exit _ _ _ _ (Nat.le_refl _) Ha) as X.
  destruct X as [X | X]; [apply nth_error_None in X; lia|].
  apply string_loop_wf in Ha; simpl; try lia.
  - destruct Ha as (new & T & W & Cn & C1 & C2 & C3 & N). simpl in *.
    exists (new ++ [mkToken STRING (sub s (start q) (cur q + 1))]).
    rewrite T, <- app_assoc. repeat split; trivial.
    + apply Forall_app. split; trivial. constructor; [|constructor].
      unfold wf_token. simpl.
      rewrite (sub_snoc s (start q) (cur q) dquote X C2).
      apply not_in_snoc; [exact N | discriminate].
    + rewrite length_app. simpl. lia.
  - rewrite (sub_one s (pos st) dquote Q). intros [I | []]. discriminate I.
Qed.

(** Closes the case of [step_tokens] for the single token [tk]. *)
Ltac single_token tk :=
  exists [tk]; simpl; rewrite ?app_nil_r;
  repeat split; trivial; try lia;
  repeat constructor.

Lemma step_tokens (s : gostring) (c : ascii) (st st' : ScanState) :
  nth_error s (pos st) = Some c ->
  step s c st = Ret st' ->
  exists new,
    result st' = result st ++ new /\
    Forall wf_token new /\
    length new <= pos st' - pos st /\
    commas_by_parity (insideArray st) new = true.
Proof.
  intros E H. unfold step in H.
  destruct (c == " ") eqn:C1.
  { injection H as <-. exists []. simpl. rewrite app_nil_r.
    repeat split; trivial; lia. }
  destruct (c == "{") eqn:C2.
  { injection H as <-. single_token (mkToken LEFT_BRACE (lit "{")). }
  destruct (c == "}") eqn:C3.
  { injection H as <-. single_token (mkToken RIGHT_BRACE (lit "}")). }
  destruct (c == "[") eqn:C4.
  { injection H as <-. single_token (mkToken LEFT_BRACKET (lit "[")). }
  destruct (c == "]") eqn:C5.
  { injection H as <-. single_token (mkToken RIGHT_BRACKET (lit "]")). }
  destruct (c == ",") eqn:C6.
  { destruct (insideArray st) eqn:IA; simpl in H; injection H as <-.
    - single_token (mkToken ARRAY_COMMA (lit ",")).
    - single_token (mkToken OBJECT_COMMA (lit ",")). }
  simpl in H.
  destruct (c == ":") eqn:C7.
  { injection H as <-. single_token (mkToken COLON (lit ":")). }
  destruct (c == dquote) eqn:C8.
  { apply Ascii.eqb_eq in C8. subst c.
    destruct (scan_string_spec s st st' E H) as (new' & R' & _ & _ & _ & _ & K & _).
    destruct (scan_string_wf s st st' E H) as (new & R & W & Cn).
    assert (new' = new) by (rewrite R in R'; now apply app_inv_head in R').
    subst new'. exists new. repeat split; trivial.
    now apply commas_string_kind. }
  destruct (IsLetter c) eqn:C9.
  { destruct (scan_word_wf s c st st' E C9 H) as (t & R & K & W).
    destruct (scan_word_spec s c st st' E C9 H)
      as (t' & (R' & _ & P1 & _) & _).
    exists [t]. repeat split; trivial.
    - now constructor.
    - simpl. lia.
    - simpl. destruct K as [K | [K | [K | K]]]; now rewrite K. }
  destruct ((c == "-") || IsDigit c) eqn:C10.
  { destruct (scan_number_wf s c st st' E C10 H) as (t & R & K & W).
    destruct (scan_number_spec s c st st' E C10 H)
      as (t' & (R' & _ & P1 & _) & _).
    exists [t]. repeat split; trivial.
    - now constructor.
    - simpl. lia.
    - simpl. now rewrite K. }
  injection H as <-.
  exists [mkToken UNKNOWN (string_of_byte c)]. simpl.
  repeat split; trivial; try lia.
  constructor; [|constructor]. exists c. split; trivial.
  unfold unknown_byte, structural.
  now rewrite C1, C2, C3, C4, C5, C6, C7, C8, C9, C10.
Qed.

Lemma brackets_cons (t : Token) (l : list Token) :
  brackets (t :: l) = (if bracket_token t then 1 else 0) + brackets l.
Proof.
  unfold brackets. simpl. now destruct (bracket_token t).
Qed.

Lemma commas_by_parity_app (b : bool) (l m : list Token) :
  commas_by_parity b (l ++ m) =
  commas_by_parity b l && commas_by_parity (xorb b (Nat.odd (brackets l))) m.
Proof.
  revert b. induction l as [|t l IH]; intros b.
  - simpl. now rewrite xorb_false_r.
  - rewrite brackets_cons. cbn [app commas_by_parity]. unfold bracket_token.
    destruct (kind t); rewrite IH; cbn [Nat.add];
      rewrite ?andb_assoc; try reflexivity;
      rewrite Nat.odd_succ, <- Nat.negb_odd;
      now destruct b, (Nat.odd (brackets l)).
Qed.

(** What every state of the outer loop keeps: the tokens made so far have
    the lexemes of their kinds, are not more than the bytes read, and have
    their commas classified by the parity of the brackets before them. *)
Lemma reachable_tokens (s : gostring) (st : ScanState) :
  reachable s st ->
  Forall wf_token (result st) /\
  length (result st) <= pos st /\
  commas_by_parity false (result st) = true.
Proof.
  induction 1 as [|st st' c R (W & Cn & Cm) E H].
  - simpl. repeat split; [constructor | lia].
  - destruct (step_tokens s c st st' E H) as (new & T & W' & Cn' & Cm').
    pose proof (step_advances s c st st' E H) as A.
    rewrite T. repeat split.
    + apply Forall_app. now split.
    + rewrite length_app. lia.
    + rewrite commas_by_parity_app, Cm. simpl.
      now rewrite <- (reachable_toggle s st R).
Qed.

Lemma scan_reachable (s : gostring) (l : list Token) :
  scan s = Ret l ->
  exists st, reachable s st /\ result st = l /\ pos st = length s.
Proof.
  intros H. unfold scan in H. inv_go H. injection H as <-.
  exists a. split; [|split; trivial].
  - exact (scan_loop_reachable _ _ _ _ (reach_init s) Ha).
  - pose proof (scan_loop_reachable _ _ _ _ (reach_init s) Ha) as R.
    apply scan_loop_end in Ha; [|simpl; lia].
    destruct (reachable_pieces s a R) as (B & _). lia.
Qed.

Lemma scan_tokens (s : gostring) (l : list Token) :
  scan s = Ret l ->
  Forall wf_token l /\ length l <= length s /\ commas_by_parity false l = true.
Proof.
  intros H. destruct (scan_reachable s l H) as (st & R & <- & <-).
  exact (reachable_tokens s st R).
Qed.

Lemma scan_token_wf (s : gostring) (l : list Token) (t : Token) :
  scan s = Ret l -> In t l -> wf_token t.
Proof.
  intros H I. destruct (scan_tokens s l H) as (W & _).
  rewrite Forall_forall in W. now apply W.
Qed.

(** Property X2.  In what [scan] returns, a token of a structural or keyword kind has
    the one lexeme of that kind: the structural character, or the word
    [true], [false] or [null]. *)
Theorem fixed_kind_lexemes (s : gostring) (l : list Token) (t : Token)
    (lx : gostring) :
  scan s = Ret l -> In t l ->
  fixed_lexeme (kind t) = Some lx ->
  lexeme t = lx.
Proof.
  intros H I F. pose proof (scan_token_wf s l t H I) as W.
  unfold wf_token in W.
  destruct (kind t); simpl in F, W; try discriminate F; congruence.
Qed.

Lemma fixed_kind_lexemes_witness :
  lexeme (mkToken NULL (lit "null")) = lit "null".
Proof.
  apply (fixed_kind_lexemes (lit "[null]")
           [mkToken LEFT_BRACKET (lit "["); mkToken NULL (lit "null");
            mkToken RIGHT_BRACKET (lit "]")]);
    [reflexivity | simpl; auto | reflexivity].
Defined.

(** Property X3.  In what [scan] returns, no STRING token holds a backslash: every
    backslash of a string region goes into an ESCAPE token. *)
Theorem string_tokens_hold_no_backslash (s : gostring) (l : list Token)
    (t : Token) :
  scan s = Ret l -> In t l -> kind t = STRING ->
  ~ In backslash (lexeme t).
Proof.
  intros H I K. pose proof (scan_token_wf s l t H I) as W.
  unfold wf_token in W. now rewrite K in W.
Qed.

Lemma string_tokens_hold_no_backslash_witness :
  ~ In backslash (lexeme (mkToken STRING ([dquote] ++ lit "a"))).
Proof.
  apply (string_tokens_hold_no_backslash unicode_literal
           [mkToken STRING ([dquote] ++ lit "a");
            mkToken ESCAPE (lit "\u00e9");
            mkToken STRING (lit "b" ++ [dquote])]);
    [reflexivity | simpl; auto | reflexivity].
Defined.

(** Property X4.  In what [scan] returns, the lexeme of an ESCAPE token is a backslash
    and one byte, followed by four more bytes exactly when that byte is
    [u]: two bytes or six. *)
Theorem escape_tokens_shape (s : gostring) (l : list Token) (t : Token) :
  scan s = Ret l -> In t l -> kind t = ESCAPE ->
  escape_shape (lexeme t) = true /\
  (length (lexeme t) = 2 \/ length (lexeme t) = 6).
Proof.
  intros H I K. pose proof (scan_token_wf s l t H I) as W.
  unfold wf_token in W. rewrite K in W. split; trivial.
  unfold escape_shape in W.
  destruct (lexeme t) as [|b [|c rest]]; try discriminate W.
  apply andb_true_iff in W as [_ W]. simpl.
  destruct (c == "u"); apply Nat.eqb_eq in W; rewrite W; auto.
Qed.

Lemma escape_tokens_shape_witness :
  escape_shape (lit "\u00e9") = true /\
  (length (lit "\u00e9") = 2 \/ length (lit "\u00e9") = 6).
Proof.
  apply (escape_tokens_shape unicode_literal
           [mkToken STRING ([dquote] ++ lit "a");
            mkToken ESCAPE (lit "\u00e9");
            mkToken STRING (lit "b" ++ [dquote])]
           (mkToken ESCAPE (lit "\u00e9")));
    [reflexivity | simpl; auto | reflexivity].
Defined.

(** Property X5.  In what [scan] returns, the lexeme of a NUMBER token begins with a
    minus sign or a digit and holds only digits and the characters
    [. e E - +]. *)
Theorem number_tokens_shape (s : gostring) (l : list Token) (t : Token) :
  scan s = Ret l -> In t l -> kind t = NUMBER ->
  number_shape (lexeme t) = true.
Proof.
  intros H I K. pose proof (scan_token_wf s l t H I) as W.
  unfold wf_token in W. now rewrite K in W.
Qed.

Lemma number_tokens_shape_witness :
  number_shape (lit "-1.5e+3") = true.
Proof.
  apply (number_tokens_shape (lit "[-1.5e+3]")
           [mkToken LEFT_BRACKET (lit "["); mkToken NUMBER (lit "-1.5e+3");
            mkToken RIGHT_BRACKET (lit "]")]
           (mkToken NUMBER (lit "-1.5e+3")));
    [reflexivity | simpl; auto | reflexivity].
Defined.

(** Property X6.  In what [scan] returns, the lexeme of a LETTER token is a run of one
    letter or more, and of letters only. *)
Theorem letter_tokens_shape (s : gostring) (l : list Token) (t : Token) :
  scan s = Ret l -> In t l -> kind t = LETTER ->
  letter_shape (lexeme t) = true.
Proof.
  intros H I K. pose proof (scan_token_wf s l t H I) as W.
  unfold wf_token in W. now rewrite K in W.
Qed.

Lemma letter_tokens_shape_witness :
  letter_shape (lit "xfalse") = true.
Proof.
  apply (letter_tokens_shape (lit "xfalse,")
           [mkToken LETTER (lit "xfalse"); mkToken OBJECT_COMMA (lit ",")]
           (mkToken LETTER (lit "xfalse")));
    [reflexivity | simpl; auto | reflexivity].
Defined.

(** Property X8.  [scan] never returns more tokens than the input has bytes. *)
Theorem token_count_bound (s : gostring) (l : list Token) :
  scan s = Ret l -> length l <= length s.
Proof.
  intros H. now destruct (scan_tokens s l H) as (_ & C & _).
Qed.

Lemma token_count_bound_witness :
  length [mkToken STRING [dquote]; mkToken ESCAPE [backslash; dquote];
          mkToken STRING [dquote]] <= length escaped_quote_literal.
Proof.
  apply (token_count_bound escaped_quote_literal). reflexivity.
Defined.

(** Property X9.  In what [scan] returns, a comma is an ARRAY_COMMA exactly when an odd
    number of bracket tokens stand before it in the sequence, whatever the
    nesting of the brackets. *)
Theorem commas_follow_bracket_parity (s : gostring) (l : list Token) :
  scan s = Ret l -> commas_by_parity false l = true.
Proof.
  intros H. now destruct (scan_tokens s l H) as (_ & _ & C).
Qed.

Lemma commas_follow_bracket_parity_witness :
  commas_by_parity false
    [mkToken LEFT_BRACKET (lit "["); mkToken LEFT_BRACKET (lit "[");
     mkToken NUMBER (lit "1"); mkToken OBJECT_COMMA (lit ",");
     mkToken NUMBER (lit "2"); mkToken RIGHT_BRACKET (lit "]");
     mkToken ARRAY_COMMA (lit ","); mkToken NUMBER (lit "3");
     mkToken RIGHT_BRACKET (lit "]")] = true.
Proof.
  apply (commas_follow_bracket_parity (lit "[[1,2],3]")). reflexivity.
Defined.

(** ** Raw text in the output *)

Lemma number_code_plain (c : ascii) :
  isValidNumberCode c = true -> special c = false.
Proof.
  intros H.
  destruct c as [[] [] [] [] [] [] [] []]; try discriminate H; reflexivity.
Qed.

Lemma letter_plain (c : ascii) : IsLetter c = true -> special c = false.
Proof.
  intros H.
  destruct c as [[] [] [] [] [] [] [] []]; try discriminate H; reflexivity.
Qed.

Lemma plain_run (p : ascii -> bool) (lx : gostring) :
  (forall c, p c = true -> special c = false) ->
  forallb p lx = true ->
  entity_or_plain lx = true.
Proof.
  intros P F. unfold entity_or_plain. apply orb_true_iff. right.
  apply forallb_forall. intros c I.
  rewrite forallb_forall in F. now rewrite (P c (F c I)).
Qed.

Lemma blank_repeat (n : nat) : forallb blank (repeat " "%char n) = true.
Proof. induction n as [|n IH]; trivial. Qed.

Lemma colour_plain (k : Kind) :
  forallb (fun c => negb (special c)) (kindColor k) = true.
Proof. now destruct k. Qed.

Lemma printIndent_spaces (num : Z) (out : gostring) :
  printIndent num out = out ++ repeat " "%char (2 * Z.to_nat num).
Proof.
  rewrite printIndent_repeat. f_equal.
  induction (Z.to_nat num) as [|n IH]; trivial.
  replace (2 * S n) with (S (S (2 * n))) by lia.
  simpl in *. now rewrite IH.
Qed.

Lemma printSpanTags_html (color lx out : gostring) :
  printSpanTags color lx out = out ++ html_span color lx.
Proof. reflexivity. Qed.

Lemma string_markup (lx : gostring) :
  flat_map markup_text
    (map (fun c => MSpan (kindColor STRING) (string_char c)) lx) =
  flat_map (span STRING) (map string_char lx).
Proof.
  induction lx as [|c lx IH]; trivial.
  cbn [map flat_map markup_text]. now rewrite IH.
Qed.

(** What the renderer writes for a token whose lexeme has no raw special
    character: layout and one span that holds the lexeme. *)
Lemma plain_token_markup (r : RenderState) (t : Token) :
  kind t <> STRING -> kind t <> UNKNOWN ->
  entity_or_plain (lexeme t) = true ->
  exists ms,
    stdout (render_token r t) = stdout r ++ flat_map markup_text ms /\
    forallb safe_markup ms = true.
Proof.
  intros K1 K2 P. unfold render_token.
  destruct (kind t) eqn:E; try congruence; cbv zeta; cbn [stdout];
    unfold Printf; rewrite ?printIndent_spaces, ?printSpanTags_html.
  - exists [MSpace [newline];
            MSpace (repeat " "%char (2 * Z.to_nat (braceCount r)));
            MSpan (kindColor LEFT_BRACE) (lexeme t); MSpace [newline];
            MSpace (repeat " "%char (2 * Z.to_nat (braceCount r + 1)))].
    cbn [flat_map markup_text forallb safe_markup].
    rewrite !blank_repeat, P, app_nil_r, <- !app_assoc. now split.
  - exists [MSpace [newline];
            MSpace (repeat " "%char (2 * Z.to_nat (braceCount r - 1)));
            MSpan (kindColor RIGHT_BRACE) (lexeme t); MSpace [newline];
            MSpace (repeat " "%char (2 * Z.to_nat (braceCount r - 1)))].
    cbn [flat_map markup_text forallb safe_markup].
    rewrite !blank_repeat, P, app_nil_r, <- !app_assoc. now split.
  - exists [MSpan (kindColor LEFT_BRACKET) (lexeme t)].
    cbn [flat_map markup_text forallb safe_markup].
    rewrite P, app_nil_r. now split.
  - exists [MSpan (kindColor RIGHT_BRACKET) (lexeme t)].
    cbn [flat_map markup_text forallb safe_markup].
    rewrite P, app_nil_r. now split.
  - exists [MSpace (lit " "); MSpan (kindColor COLON) (lexeme t);
            MSpace (lit " ")].
    cbn [flat_map markup_text forallb safe_markup].
    rewrite P, app_nil_r, <- !app_assoc. now split.
  - exists [MSpan (kindColor OBJECT_COMMA) (lexeme t); MSpace [newline];
            MSpace (repeat " "%char (2 * Z.to_nat (braceCount r)))].
    cbn [flat_map markup_text forallb safe_markup].
    rewrite !blank_repeat, P, app_nil_r, <- !app_assoc. now split.
  - exists [MSpan (kindColor ARRAY_COMMA) (lexeme t); MSpace (lit " ")].
    cbn [flat_map markup_text forallb safe_markup].
    rewrite P, app_nil_r, <- !app_assoc. now split.
  - exists [MSpan (kindColor TRUE) (lexeme t)].
    cbn [flat_map markup_text forallb safe_markup].
    rewrite P, app_nil_r. now split.
  - exists [MSpan (kindColor FALSE) (lexeme t)].
    cbn [flat_map markup_text forallb safe_markup].
    rewrite P, app_nil_r. now split.
  - exists [MSpan (kindColor NULL) (lexeme t)].
    cbn [flat_map markup_text forallb safe_markup].
    rewrite P, app_nil_r. now split.
  - exists [MSpan (kindColor ESCAPE) (lexeme t)].
    cbn [flat_map markup_text forallb safe_markup].
    rewrite P, app_nil_r. now split.
  - exists [MSpan (kindColor NUMBER) (lexeme t)].
    cbn [flat_map markup_text forallb safe_markup].
    rewrite P, app_nil_r. now split.
  - exists [MSpan (kindColor LETTER) (lexeme t)].
    cbn [flat_map markup_text forallb safe_markup].
    rewrite P, app_nil_r. now split.
Qed.

(** The lexeme of a token that [scan] returns, other than a STRING, an
    ESCAPE or an UNKNOWN token, has no special character. *)
Lemma scanned_lexeme_plain (t : Token) :
  wf_token t ->
  kind t <> STRING -> kind t <> ESCAPE -> kind t <> UNKNOWN ->
  entity_or_plain (lexeme t) = true.
Proof.
  intros W K1 K2 K3. unfold wf_token in W.
  destruct (kind t) eqn:E; try congruence;
    try (simpl in W; injection W as <-; reflexivity).
  - unfold number_shape in W.
    destruct (lexeme t) as [|c lx]; [discriminate W|].
    apply andb_true_iff in W as [_ W].
    exact (plain_run isValidNumberCode _ number_code_plain W).
  - unfold letter_shape in W.
    destruct (lexeme t) as [|c lx]; [discriminate W|].
    exact (plain_run IsLetter _ letter_plain W).
Qed.

(** Property X16.  In what [scan] returns, the ESCAPE tokens are the only
    ones that [colorizedPrint] can write with a raw [<], [>], [&], double
    quote or [']: for a token of any other kind, what the renderer appends
    to the output, in any state, is made of blank layout and of spans
    whose colour holds none of these characters and whose text is a named
    entity or holds none of them. *)
Theorem only_escapes_render_raw (s : gostring) (l : list Token) (t : Token)
    (r : RenderState) :
  scan s = Ret l -> In t l -> kind t <> ESCAPE ->
  exists ms,
    stdout (render_token r t) = stdout r ++ flat_map markup_text ms /\
    forallb safe_markup ms = true.
Proof.
  intros H I K. pose proof (scan_token_wf s l t H I) as W.
  destruct (Kind_eq_dec (kind t) STRING) as [S | S].
  { exists (map (fun c => MSpan (kindColor STRING) (string_char c)) (lexeme t)).
    split.
    - unfold render_token. rewrite S. cbn [stdout].
      now rewrite print_string_spans, string_markup.
    - apply forallb_forall. intros m M.
      apply in_map_iff in M as (c & <- & _). cbn [safe_markup].
      now rewrite colour_plain, string_char_escaped. }
  destruct (Kind_eq_dec (kind t) UNKNOWN) as [U | U].
  { exists []. unfold render_token. rewrite U. cbn [stdout flat_map].
    now rewrite app_nil_r. }
  apply plain_token_markup; trivial.
  now apply scanned_lexeme_plain.
Qed.

Lemma only_escapes_render_raw_witness :
  exists ms,
    stdout (render_token render_init (mkToken STRING (lit "b" ++ [dquote]))) =
    stdout render_init ++ flat_map markup_text ms /\
    forallb safe_markup ms = true.
Proof.
  apply (only_escapes_render_raw unicode_literal
           [mkToken STRING ([dquote] ++ lit "a");
            mkToken ESCAPE (lit "\u00e9");
            mkToken STRING (lit "b" ++ [dquote])]);
    [reflexivity | simpl; auto | discriminate].
Defined.

(** ** Inputs on which the scanner returns *)

Lemma scan_number_returns (s : gostring) (st : ScanState) :
  pos st <= length s -> exists st', scan_number s st = Ret st'.
Proof.
  intros L. unfold scan_number, number_loop.
  destruct (run_loop_bounds isValidNumberCode s (length s - pos st) (pos st) L).
  rewrite slice_ok by trivial. simpl. eauto.
Qed.

Lemma step_returns (s : gostring) (c : ascii) (st : ScanState) :
  nth_error s (pos st) = Some c ->
  c <> dquote ->
  ~ truncated_word s ->
  exists st', step s c st = Ret st'.
Proof.
  intros E Q T. pose proof (nth_error_lt _ _ _ E) as L. unfold step.
  destruct (c == " "); [eauto|]. destruct (c == "{"); [eauto|].
  destruct (c == "}"); [eauto|]. destruct (c == "["); [eauto|].
  destruct (c == "]"); [eauto|].
  destruct ((c == ",") && negb (insideArray st)); [eauto|].
  destruct ((c == ",") && insideArray st); [eauto|].
  destruct (c == ":"); [eauto|].
  destruct (c == dquote) eqn:D; [apply Ascii.eqb_eq in D; contradiction|].
  destruct (IsLetter c).
  { apply scan_word_returns; trivial.
    intros (C & P & N1 & N2). apply T.
    assert (I : length s - 4 = pos st) by lia.
    unfold truncated_word. rewrite I, <- P.
    repeat split; trivial; [lia|].
    destruct C; subst c; auto. }
  destruct ((c == "-") || IsDigit c); [|eauto].
  apply scan_number_returns. lia.
Qed.

Lemma scan_loop_returns (fuel : nat) (s : gostring) (st : ScanState) :
  ~ In dquote s -> ~ truncated_word s ->
  exists st', scan_loop fuel s st = Ret st'.
Proof.
  intros Q T. revert st. induction fuel as [|f IH]; intros st; simpl; [eauto|].
  destruct (nth_error s (pos st)) as [c|] eqn:E; [|eauto].
  destruct (step_returns s c st E) as (st1 & H); trivial.
  - intros ->. apply Q. now apply nth_error_In in E.
  - rewrite H. simpl. apply IH.
Qed.

(** Property X14.  [scan] returns a token sequence, without panic, on every input that
    holds no double quote and does not end with a four-byte word that
    begins with [t] or [n] and is neither [true] nor [null]. *)
Theorem scan_returns_without_quotes (s : gostring) :
  ~ In dquote s -> ~ truncated_word s -> exists l, scan s = Ret l.
Proof.
  intros Q T. unfold scan.
  destruct (scan_loop_returns (length s) s scan_init Q T) as (st & H).
  rewrite H. simpl. eauto.
Qed.

Lemma scan_returns_without_quotes_witness :
  exists l, scan (lit "[nope]") = Ret l.
Proof.
  apply (scan_returns_without_quotes (lit "[nope]")).
  - simpl. intros H.
    repeat (destruct H as [H | H]; [discriminate H|]). exact H.
  - intros (_ & [H | H] & _); discriminate H.
Defined.

(** ** String regions that end well or badly *)

Lemma string_loop_plain (s : gostring) (d : nat) (q : StrState) (j : nat) :
  j = cur q + d ->
  (forall k c, cur q <= k < j -> nth_error s k = Some c ->
               c <> dquote /\ c <> backslash) ->
  nth_error s j = Some dquote ->
  string_loop (length s - cur q) s q = Ret (mkStr (start q) j (toks q)).
Proof.
  revert q. induction d as [|d IH]; intros q J P Q; rewrite string_loop_eq.
  - rewrite Nat.add_0_r in J. subst j. rewrite Q. simpl. now destruct q.
  - pose proof (nth_error_lt _ _ _ Q) as L.
    destruct (nth_error s (cur q)) as [c|] eqn:E;
      [|apply nth_error_None in E; lia].
    destruct (P (cur q) c) as [C1 C2]; [lia | trivial |].
    apply Ascii.eqb_neq in C1, C2. rewrite C1.
    unfold string_iter. rewrite C2. cbn [bind].
    rewrite (IH (mkStr (start q) (cur q + 1) (toks q))); simpl; trivial.
    + lia.
    + intros k c' K. apply P. lia.
Qed.

(** Property X11.  A string literal without backslash gives one STRING token: when the
    outer loop is at a double quote, the next double quote is at [j] and
    no backslash stands between them, the token's lexeme is the literal,
    both quotes included, and the loop goes on after the closing quote. *)
Theorem plain_string_token (s : gostring) (st : ScanState) (j : nat) :
  nth_error s (pos st) = Some dquote ->
  pos st < j ->
  nth_error s j = Some dquote ->
  (forall k c, pos st < k < j -> nth_error s k = Some c ->
               c <> dquote /\ c <> backslash) ->
  step s dquote st = Ret (emit st STRING (sub s (pos st) (j + 1)) (j + 1)).
Proof.
  intros E L Q P. rewrite step_dquote. unfold scan_string.
  cbv zeta. cbn [cur].
  pose proof (string_loop_plain s (j - (pos st + 1))
                (mkStr (pos st) (pos st + 1) (result st)) j) as X.
  cbn [cur start toks] in X. rewrite X; trivial.
  - apply nth_error_lt in Q. cbn [bind cur start toks].
    rewrite slice_ok by lia. reflexivity.
  - lia.
  - intros k c K. apply P. lia.
Qed.

Lemma plain_string_token_witness :
  step quoted_a dquote scan_init =
  Ret (emit scan_init STRING (sub quoted_a 0 (2 + 1)) (2 + 1)).
Proof.
  apply (plain_string_token quoted_a scan_init 2);
    [reflexivity | simpl; lia | reflexivity |].
  intros k c K E. assert (k = 1) by (simpl in K; lia). subst k.
  injection E as <-. split; discriminate.
Defined.

Lemma str_panics_from (s : gostring) (q : StrState) (c : ascii) (p : panic) :
  str_reachable s q ->
  nth_error s (cur q) = Some c ->
  c <> dquote ->
  string_iter s c q = Panics p ->
  scan s = Panics p.
Proof.
  intros Q E D H.
  destruct (str_reachable_inv s q Q) as (_ & _ & st & R & O & EQ).
  apply scan_panics_from with (st := st) (c := dquote); trivial.
  rewrite step_dquote. unfold scan_string. cbv zeta. cbn [cur].
  rewrite <- EQ, string_loop_eq, E.
  apply Ascii.eqb_neq in D. now rewrite D, H.
Qed.

(** Property X12.  A backslash that is the last byte of the input, met inside a string
    region, makes [scan] panic with an index out of range: [s[i]] is read
    after the backslash without a bounds check. *)
Theorem trailing_backslash_panics (s : gostring) (q : StrState) :
  str_reachable s q ->
  nth_error s (cur q) = Some backslash ->
  cur q + 1 = length s ->
  scan s = Panics IndexOutOfRange.
Proof.
  intros Q B L.
  destruct (str_reachable_inv s q Q) as (L1 & L2 & _).
  apply str_panics_from with (q := q) (c := backslash); trivial;
    [discriminate|].
  unfold string_iter. simpl. rewrite slice_ok by lia. simpl.
  unfold index.
  assert (N : nth_error s (cur q + 1) = None) by (apply nth_error_None; lia).
  now rewrite N.
Qed.

Lemma trailing_backslash_panics_witness :
  scan ([dquote] ++ lit "a\") = Panics IndexOutOfRange.
Proof.
  apply (trailing_backslash_panics ([dquote] ++ lit "a\") (mkStr 0 2 []));
    [|reflexivity|reflexivity].
  apply (str_reach_iter _ (mkStr 0 1 []) _ "a"%char);
    [|reflexivity|discriminate|reflexivity].
  apply (str_reach_open _ scan_init); [apply reach_init | reflexivity].
Defined.

(** Property X13.  A [\u] escape with fewer than four bytes after the [u], met inside a
    string region, makes [scan] panic with a slice bound out of range:
    [i += 5] goes beyond the end before [s[start:i]] is taken. *)
Theorem short_unicode_escape_panics (s : gostring) (q : StrState) :
  str_reachable s q ->
  nth_error s (cur q) = Some backslash ->
  nth_error s (cur q + 1) = Some "u"%char ->
  length s < cur q + 6 ->
  scan s = Panics SliceBoundsOutOfRange.
Proof.
  intros Q B U L.
  destruct (str_reachable_inv s q Q) as (L1 & L2 & _).
  apply str_panics_from with (q := q) (c := backslash); trivial;
    [discriminate|].
  unfold string_iter. simpl. rewrite slice_ok by lia. simpl.
  unfold index. rewrite U. simpl.
  now rewrite slice_beyond by lia.
Qed.

Lemma short_unicode_escape_panics_witness :
  scan ([dquote] ++ lit "\u12" ++ [dquote]) = Panics SliceBoundsOutOfRange.
Proof.
  apply (short_unicode_escape_panics ([dquote] ++ lit "\u12" ++ [dquote])
           (mkStr 0 1 []));
    [|reflexivity|reflexivity|simpl; lia].
  apply (str_reach_open _ scan_init); [apply reach_init | reflexivity].
Defined.

(** ** The renderer only appends *)

Lemma print_string_app (lx out : gostring) :
  print_string lx out = out ++ print_string lx [].
Proof. now rewrite !print_string_spans. Qed.

Lemma printIndent_app (num : Z) (out : gostring) :
  printIndent num out = out ++ printIndent num [].
Proof. now rewrite !printIndent_repeat. Qed.

Lemma render_token_append (r : RenderState) (t : Token) :
  render_token r t =
  mkRender (stdout r ++ body [t] (braceCount r))
           (depth_after [t] (braceCount r)).
Proof.
  unfold body, depth_after, render_tokens. cbn [fold_left].
  unfold render_token. cbn [stdout braceCount].
  destruct (kind t); cbn [stdout braceCount]; f_equal;
    unfold Printf;
    repeat first
      [ rewrite (printIndent_app _ (_ ++ _))
      | rewrite (printSpanTags_span _ _ (_ ++ _))
      | rewrite (printSpanTags_span _ _ (stdout r))
      | rewrite (print_string_app _ (stdout r)) ];
    rewrite ?app_nil_r, <- ?app_assoc; reflexivity.
Qed.

Lemma render_tokens_append (l : list Token) (r : RenderState) :
  render_tokens l r =
  mkRender (stdout r ++ body l (braceCount r))
           (depth_after l (braceCount r)).
Proof.
  revert r. induction l as [|t l IH]; intros r.
  - unfold body, depth_after. simpl. rewrite app_nil_r. now destruct r.
  - assert (U : forall r0, render_tokens (t :: l) r0 =
                           render_tokens l (render_token r0 t)) by reflexivity.
    assert (B : render_tokens (t :: l) (mkRender [] (braceCount r)) =
                mkRender (body [t] (braceCount r)
                          ++ body l (depth_after [t] (braceCount r)))
                         (depth_after l (depth_after [t] (braceCount r)))).
    { rewrite U, IH, render_token_append. reflexivity. }
    unfold body, depth_after. rewrite B. cbn [stdout braceCount].
    rewrite U, IH, render_token_append. cbn [stdout braceCount].
    now rewrite <- app_assoc.
Qed.

(** Property X17.  The renderer only appends to the output, and what it appends depends
    on the tokens and on the depth it starts at, not on what is already
    written: the rendering of [l1 ++ l2] is the rendering of [l1] followed
    by the rendering of [l2] at the depth that [l1] ends at.  The output of
    [colorizedPrint] is the container's opening tag, the rendering of the
    tokens at depth zero and the closing tag. *)
Theorem rendering_composes (l1 l2 : list Token) (out : gostring) (d : Z) :
  render_tokens (l1 ++ l2) (mkRender out d) =
  mkRender (out ++ body l1 d ++ body l2 (depth_after l1 d))
           (depth_after l2 (depth_after l1 d)) /\
  colorizedPrint (l1 ++ l2) =
  span_open ++ body l1 0 ++ body l2 (depth_after l1 0) ++ span_close.
Proof.
  assert (G : forall o e,
    render_tokens (l1 ++ l2) (mkRender o e) =
    mkRender (o ++ body l1 e ++ body l2 (depth_after l1 e))
             (depth_after l2 (depth_after l1 e))).
  { intros o e. rewrite render_tokens_app, (render_tokens_append l1).
    rewrite render_tokens_append. cbn [stdout braceCount].
    now rewrite <- app_assoc. }
  split; [apply G|].
  unfold colorizedPrint, render_init. rewrite G.
  unfold Printf. cbn [stdout app]. now rewrite <- !app_assoc.
Qed.

(** Property X18.  [braceCount] is the depth the renderer starts at, plus the LEFT_BRACE
    tokens seen, minus the RIGHT_BRACE tokens seen; tokens of the other
    kinds, brackets included, do not change it. *)
Theorem depth_is_brace_balance (l : list Token) (out : gostring) (d : Z) :
  braceCount (render_tokens l (mkRender out d)) =
  (d + Z.of_nat (count_kind LEFT_BRACE l)
   - Z.of_nat (count_kind RIGHT_BRACE l))%Z.
Proof. apply render_tokens_braceCount. Qed.

(** Property X19.  UNKNOWN tokens leave no trace in the output: rendering a token
    sequence and rendering it without its UNKNOWN tokens give the same
    result. *)
Theorem unknown_tokens_dropped (l : list Token) (r : RenderState) :
  render_tokens (filter (fun t => negb (is_unknown t)) l) r =
  render_tokens l r.
Proof.
  revert r. induction l as [|t l IH]; intros r; trivial.
  cbn [filter]. unfold is_unknown, Kind_eqb at 1.
  destruct (Kind_eq_dec (kind t) UNKNOWN) as [K | K]; cbn [negb].
  - change (render_tokens (t :: l) r) with (render_tokens l (render_token r t)).
    rewrite IH. f_equal. unfold render_token. rewrite K. now destruct r.
  - change (render_tokens (t :: filter (fun t0 => negb (is_unknown t0)) l) r)
      with (render_tokens (filter (fun t0 => negb (is_unknown t0)) l)
              (render_token r t)).
    apply IH.
Qed.

Lemma concat_repeat_two (n : nat) :
  concat (repeat (lit "  ") n) = repeat " "%char (2 * n).
Proof.
  induction n as [|n IH]; trivial.
  replace (2 * S n) with (S (S (2 * n))) by lia.
  simpl in *. now rewrite IH.
Qed.

(** Property X20.  [printIndent] writes two plain spaces per level: [2 * num] spaces for
    a positive [num], and nothing for zero or a negative [num]. *)
Theorem indent_width (num : Z) (out : gostring) :
  printIndent num out = out ++ repeat " "%char (2 * Z.to_nat num).
Proof.
  now rewrite printIndent_repeat, concat_repeat_two.
Qed.

(** ** Token display *)

Lemma declared_kind (k : Z) :
  (0 <= k <= 14)%Z -> exists K, kind_code K = k.
Proof.
  intros H.
  assert (C : (k = 0 \/ k = 1 \/ k = 2 \/ k = 3 \/ k = 4 \/ k = 5 \/ k = 6
               \/ k = 7 \/ k = 8 \/ k = 9 \/ k = 10 \/ k = 11 \/ k = 12
               \/ k = 13 \/ k = 14)%Z) by lia.
  repeat (destruct C as [-> | C]);
    [ exists LEFT_BRACE | exists RIGHT_BRACE | exists LEFT_BRACKET
    | exists RIGHT_BRACKET | exists COLON | exists OBJECT_COMMA
    | exists ARRAY_COMMA | exists TRUE | exists FALSE | exists NULL
    | exists STRING | exists ESCAPE | exists NUMBER | exists LETTER
    | subst k; exists UNKNOWN ]; reflexivity.
Qed.

Lemma kindName_width (K : Kind) : length (kindName (kind_code K)) = 13.
Proof. now destruct K. Qed.

Lemma kindName_inj (K1 K2 : Kind) :
  kindName (kind_code K1) = kindName (kind_code K2) -> K1 = K2.
Proof.
  destruct K1, K2; intros H; trivial; discriminate H.
Qed.

Lemma kindName_missing (k : Z) : ~ (0 <= k <= 14)%Z -> kindName k = [].
Proof.
  intros H. unfold kindName.
  destruct k as [|q|q]; [lia | | reflexivity].
  do 4 (destruct q as [q|q|]; try reflexivity; try lia).
Qed.

Lemma app_same_length {A : Type} (a b x y : list A) :
  length a = length b -> a ++ x = b ++ y -> a = b /\ x = y.
Proof.
  revert b. induction a as [|h a IH]; intros [|k b] L H;
    try discriminate L; [now split|].
  injection H as -> H. injection L as L.
  destruct (IH b L H) as [-> ->]. now split.
Qed.

(** Property X21.  On tokens whose kind is one of the fifteen declared
    constants, the method [String] tells tokens apart: the names of these
    kinds are distinct and thirteen characters wide, so two such tokens
    with the same display are the same token.  For a kind outside the
    constants [kindName] holds no name, and two tokens of such kinds with
    the same lexeme have the same display. *)
Theorem token_display_injective :
  (forall t1 t2 : RawToken,
     (0 <= raw_kind t1 <= 14)%Z -> (0 <= raw_kind t2 <= 14)%Z ->
     Token_String t1 = Token_String t2 -> t1 = t2) /\
  (forall (k1 k2 : Z) (lx : gostring),
     ~ (0 <= k1 <= 14)%Z -> ~ (0 <= k2 <= 14)%Z ->
     Token_String (mkRaw k1 lx) = Token_String (mkRaw k2 lx)).
Proof.
  split.
  - intros [k1 lx1] [k2 lx2] H1 H2. unfold Token_String. simpl in *.
    destruct (declared_kind k1 H1) as (K1 & <-).
    destruct (declared_kind k2 H2) as (K2 & <-).
    intros H. apply app_same_length in H as [K H];
      [|now rewrite !kindName_width].
    injection H as H. apply kindName_inj in K. congruence.
  - intros k1 k2 lx H1 H2. unfold Token_String. simpl.
    now rewrite (kindName_missing k1 H1), (kindName_missing k2 H2).
Qed.

Lemma token_display_injective_witness :
  raw (mkToken NULL (lit "null")) = raw (mkToken NULL (sub (lit "[null]") 1 5))
  /\ Token_String (mkRaw 15 (lit "x")) = Token_String (mkRaw 16 (lit "x")).
Proof.
  split.
  - apply (proj1 token_display_injective); [simpl; lia | simpl; lia |].
    reflexivity.
  - apply (proj2 token_display_injective); lia.
Defined.

(** ** Keywords and unknown bytes *)




(** Property X7.  In what [scan] returns, an UNKNOWN token is made from one byte that no
    other case of the scanner takes, and its lexeme is [string(c)] for
    that byte [c]: one byte, or two for a byte from 0x80 on. *)
Theorem unknown_tokens_shape (s : gostring) (l : list Token) (t : Token) :
  scan s = Ret l -> In t l -> kind t = UNKNOWN ->
  exists c,
    unknown_byte c = true /\ lexeme t = string_of_byte c /\
    (length (lexeme t) = 1 \/ length (lexeme t) = 2).
Proof.
  intros H I K. pose proof (scan_token_wf s l t H I) as W.
  unfold wf_token in W. rewrite K in W. destruct W as (c & U & ->).
  exists c. repeat split; trivial.
  unfold string_of_byte. destruct (nat_of_ascii c <? 128); auto.
Qed.

Lemma unknown_tokens_shape_witness :
  exists c,
    unknown_byte c = true /\
    lexeme (mkToken UNKNOWN [ascii_of_nat 194; ascii_of_nat 169]) =
    string_of_byte c /\
    (length (lexeme (mkToken UNKNOWN [ascii_of_nat 194; ascii_of_nat 169])) = 1
     \/ length (lexeme (mkToken UNKNOWN [ascii_of_nat 194; ascii_of_nat 169]))
        = 2).
Proof.
  apply (unknown_tokens_shape copyright_sign
           [mkToken LETTER [ascii_of_nat 194];
            mkToken UNKNOWN [ascii_of_nat 194; ascii_of_nat 169]]);
    [reflexivity | simpl; auto | reflexivity].
Defined.

(** ** Leading spaces *)

Lemma ltb_shift (i k n : nat) : (i + 1 + k <? S n) = (i + k <? n).
Proof.
  destruct (i + k <? n) eqn:E.
  - apply Nat.ltb_lt in E. apply Nat.ltb_lt. lia.
  - apply Nat.ltb_ge in E. apply Nat.ltb_ge. lia.
Qed.

Section Shift.

Variable a : ascii.
Variable s : gostring.

Lemma nth_error_shift (i : nat) : nth_error (a :: s) (i + 1) = nth_error s i.
Proof. now rewrite Nat.add_1_r. Qed.

Lemma slice_shift (lo hi : nat) :
  slice (a :: s) (lo + 1) (hi + 1) = slice s lo hi.
Proof.
  unfold slice, sub. rewrite !Nat.add_1_r. simpl. reflexivity.
Qed.

Lemma index_shift (i : nat) : index (a :: s) (i + 1) = index s i.
Proof. unfold index. now rewrite nth_error_shift. Qed.

Lemma run_loop_shift (p : ascii -> bool) (fuel i : nat) :
  run_loop p fuel (a :: s) (i + 1) = run_loop p fuel s i + 1.
Proof.
  revert i. induction fuel as [|f IH]; intros i; simpl; trivial.
  rewrite nth_error_shift. destruct (nth_error s i) as [c|]; trivial.
  destruct (p c); [apply IH | reflexivity].
Qed.

Lemma string_iter_shift (c : ascii) (q : StrState) :
  string_iter (a :: s) c (shift_str q) = go_map shift_str (string_iter s c q).
Proof.
  unfold string_iter, shift_str. cbn [start cur toks].
  destruct (c == backslash); [|reflexivity].
  rewrite slice_shift. destruct (slice s (start q) (cur q)) as [frag|]; trivial.
  cbn [bind]. rewrite index_shift.
  destruct (index s (cur q + 1)) as [e|]; trivial. cbn [bind].
  destruct (e == "u").
  - replace (cur q + 1 + 1 + 5) with (cur q + 1 + 5 + 1) by lia.
    rewrite slice_shift.
    now destruct (slice s (cur q) (cur q + 1 + 5)).
  - rewrite slice_shift.
    now destruct (slice s (cur q) (cur q + 1 + 1)).
Qed.

Lemma string_loop_shift (fuel : nat) (q : StrState) :
  string_loop fuel (a :: s) (shift_str q) =
  go_map shift_str (string_loop fuel s q).
Proof.
  revert q. induction fuel as [|f IH]; intros q; simpl; trivial.
  rewrite nth_error_shift. destruct (nth_error s (cur q)) as [c|]; trivial.
  destruct (c == dquote); trivial.
  rewrite string_iter_shift.
  destruct (string_iter s c q) as [q'|]; simpl; trivial.
Qed.

Lemma scan_string_shift (st : ScanState) :
  scan_string (a :: s) (shift_scan st) = go_map shift_scan (scan_string s st).
Proof.
  unfold scan_string. cbv zeta. cbn [cur pos result insideArray shift_scan].
  replace (length (a :: s) - (pos st + 1 + 1)) with (length s - (pos st + 1))
    by (cbn [length]; lia).
  change (mkStr (pos st + 1) (pos st + 1 + 1) (result st))
    with (shift_str (mkStr (pos st) (pos st + 1) (result st))).
  rewrite string_loop_shift.
  destruct (string_loop _ s _) as [q|]; trivial.
  cbn [go_map bind shift_str start cur toks].
  rewrite slice_shift. now destruct (slice s (start q) (cur q + 1)).
Qed.

Lemma letter_clause_shift (st : ScanState) :
  letter_clause (a :: s) (shift_scan st) =
  go_map shift_scan (letter_clause s st).
Proof.
  unfold letter_clause, letter_loop. cbn [pos shift_scan].
  replace (length (a :: s) - (pos st + 1)) with (length s - pos st)
    by (cbn [length]; lia).
  rewrite run_loop_shift, slice_shift.
  now destruct (slice s (pos st) _).
Qed.

Lemma false_clause_shift (st : ScanState) :
  false_clause (a :: s) (shift_scan st) = go_map shift_scan (false_clause s st).
Proof.
  unfold false_clause. rewrite letter_clause_shift. cbn [pos shift_scan].
  replace (pos st + 1 + 5) with (pos st + 5 + 1) by lia.
  rewrite slice_shift.
  destruct (slice s (pos st) (pos st + 5)) as [w|]; trivial. cbn [bind].
  now destruct (gostring_eqb w (lit "false")).
Qed.

Lemma scan_word_shift (c : ascii) (st : ScanState) :
  scan_word (a :: s) c (shift_scan st) = go_map shift_scan (scan_word s c st).
Proof.
  unfold scan_word. cbv zeta.
  rewrite letter_clause_shift, false_clause_shift.
  cbn [pos shift_scan length].
  rewrite !ltb_shift.
  destruct ((pos st + 3 <? length s) && ((c == "t") || (c == "n")));
    [|now destruct ((pos st + 4 <? length s) && (c == "f"))].
  unfold true_null_clause. rewrite false_clause_shift. cbn [pos shift_scan].
  replace (pos st + 1 + 4) with (pos st + 4 + 1) by lia.
  rewrite slice_shift.
  destruct (slice s (pos st) (pos st + 4)) as [w|]; trivial. cbn [bind].
  destruct (gostring_eqb w (lit "true")); trivial.
  now destruct (gostring_eqb w (lit "null")).
Qed.

Lemma scan_number_shift (st : ScanState) :
  scan_number (a :: s) (shift_scan st) = go_map shift_scan (scan_number s st).
Proof.
  unfold scan_number, number_loop. cbn [pos shift_scan].
  replace (length (a :: s) - (pos st + 1)) with (length s - pos st)
    by (cbn [length]; lia).
  rewrite run_loop_shift, slice_shift.
  now destruct (slice s (pos st) _).
Qed.

Lemma step_shift (c : ascii) (st : ScanState) :
  step (a :: s) c (shift_scan st) = go_map shift_scan (step s c st).
Proof.
  unfold step. cbv zeta.
  rewrite scan_string_shift, scan_word_shift, scan_number_shift.
  cbn [pos insideArray result shift_scan].
  repeat match goal with
  | |- context [if ?b then _ else _] => destruct b; [reflexivity|]
  end.
  reflexivity.
Qed.

Lemma scan_loop_shift (fuel : nat) (st : ScanState) :
  scan_loop fuel (a :: s) (shift_scan st) =
  go_map shift_scan (scan_loop fuel s st).
Proof.
  revert st. induction fuel as [|f IH]; intros st; simpl; trivial.
  rewrite nth_error_shift. destruct (nth_error s (pos st)) as [c|]; trivial.
  rewrite step_shift. destruct (step s c st) as [st'|]; simpl; trivial.
Qed.

End Shift.

Lemma scan_leading_space (s : gostring) : scan (" "%char :: s) = scan s.
Proof.
  unfold scan.
  assert (U : scan_loop (length (" "%char :: s)) (" "%char :: s) scan_init =
              scan_loop (length s) (" "%char :: s) (shift_scan scan_init))
    by reflexivity.
  rewrite U, scan_loop_shift.
  now destruct (scan_loop (length s) s scan_init).
Qed.

(** Property X15.  Plain spaces before the input change nothing: [scan] returns the same
    tokens, or panics in the same way, with or without them. *)
Theorem leading_spaces_ignored (k : nat) (s : gostring) :
  scan (repeat " "%char k ++ s) = scan s.
Proof.
  induction k as [|k IH]; trivial.
  cbn [repeat app]. now rewrite scan_leading_space.
Qed.
